(** * uva-recommender-system: a shallow embedding of the notebook

    The notebook is a linear pandas script.  Every pandas call it makes is
    embedded here as a function on an explicit table type, with the
    behaviour pandas has for that call and for the default arguments the
    notebook leaves implicit:

    - [pd.merge(ratings, movies, on='movieId')]            ~> [merge]
      (inner join, rows grouped by key)
    - [pivot_table(index=, columns=, values=)]             ~> [pivot_table]
      (group keys sorted, default aggregation [mean])
    - [fillna(0)]                                          ~> [fillna]
    - [str.split('|')], [set_index('title')], [explode()]  ~> [str_split], [genres_are_text], [explode]
    - [pd.get_dummies], [sum(level=0)], [transpose()]      ~> [get_dummies], [sum_level0], [transpose]
    - [df[movie]], [corrwith], [sort_values(ascending=False)]
                                                           ~> [getitem], [corrwith64], [sort_values64]
    - [np.corrcoef], [ndarray.mean], [argsort]             ~> [corrcoef], [mean64], [aquicksort]

    The notebook calls [sum(level=0)] and [explode], which bounds pandas
    between 0.25 and 1.5.  Where these versions differ the embedding follows
    pandas 1.2 to 1.5 ([sort_values] goes through [nargsort]) on numpy up to
    1.24 ([argsort] is the introsort of [npysort]).

    Numbers.  Integer ids are [Z]; titles and genre labels are [string]
    (UTF-8 bytes, whose lexicographic order is Python's code point order).
    Ratings and the cells of the rating matrix are rationals, and a missing
    value is a separate constructor; the mean of a pivot cell is the exact
    quotient of the sum by the count.

    The scores are modelled twice.
    - [corrcoef], [corrwith64] and [similarity_ranker64] follow
      [numpy.corrcoef] operation by operation in IEEE 754 binary64, on
      [spec_float] with a precision of 53 bits: the pairwise summation
      of the mean, the deviations, the products, the factor [1 / (n - 1)],
      the square roots, the two divisions and the clipping.  What depends on
      rounding is stated on this model.
    - [pearson], [corrwith] and [similarity_ranker] compute the same
      quotient without rounding, in rationals.  They carry the facts that
      do not depend on the arithmetic: which keys a ranking lists, where the
      undefined scores stand, which requests fail. *)

From Stdlib Require Import String Ascii.
From Stdlib Require Import Reals Qreals Lra.
From Stdlib Require Import List ZArith QArith Qabs Bool Lia.
From Stdlib Require Import Permutation Sorted Lqa Psatz Setoid Morphisms.
From Stdlib Require Import OrderedTypeEx SpecFloat.
From Stdlib Require Import List.
Import ListNotations.

Set Implicit Arguments.

(* ================================================================== *)
(** ** Ordered keys *)
(* ================================================================== *)

(** Keys that pandas can sort: a three-way comparison that is a strict total
    order.  [pivot_table] and [get_dummies] sort their labels with it. *)
Class Ordered (K : Type) := {
  cmp : K -> K -> comparison;
  cmp_eq : forall a b, cmp a b = Eq <-> a = b;
  cmp_antisym : forall a b, cmp a b = CompOpp (cmp b a);
  cmp_trans : forall a b c, cmp a b = Lt -> cmp b c = Lt -> cmp a c = Lt
}.

Definition key_lt {K} `{Ordered K} (a b : K) : Prop := cmp a b = Lt.

Definition key_eqb {K} `{Ordered K} (a b : K) : bool :=
  match cmp a b with Eq => true | _ => false end.

#[export, refine] Instance Ordered_Z : Ordered Z := {| cmp := Z.compare |}.
Proof.
  - intros a b. apply Z.compare_eq_iff.
  - intros a b. apply Z.compare_antisym.
  - intros a b c. rewrite !Z.compare_lt_iff. lia.
Defined.

#[export, refine] Instance Ordered_string : Ordered string :=
  {| cmp := String.compare |}.
Proof.
  - intros a b. exact (String_as_OT.cmp_eq a b).
  - intros a b. apply String.compare_antisym.
  - intros a b c Hab Hbc.
    apply String_as_OT.cmp_lt. apply String_as_OT.cmp_lt in Hab, Hbc.
    eapply String_as_OT.lt_trans; eassumption.
Defined.

(** Tuples compare lexicographically, as the two-level group keys do. *)
Definition cmp_pair {A B} `{Ordered A} `{Ordered B} (x y : A * B) : comparison :=
  match cmp (fst x) (fst y) with
  | Eq => cmp (snd x) (snd y)
  | c => c
  end.

#[export, refine] Instance Ordered_pair {A B} `{Ordered A} `{Ordered B} :
  Ordered (A * B) := {| cmp := cmp_pair |}.
Proof.
  - intros [a1 b1] [a2 b2]. unfold cmp_pair. simpl. split.
    + destruct (cmp a1 a2) eqn:E; try discriminate.
      intros E2. apply cmp_eq in E, E2. congruence.
    + intros [= -> ->].
      rewrite (proj2 (cmp_eq a2 a2) eq_refl). now apply cmp_eq.
  - intros [a1 b1] [a2 b2]. unfold cmp_pair. simpl.
    rewrite (cmp_antisym a1 a2).
    destruct (cmp a2 a1); simpl; auto using cmp_antisym.
  - intros [a1 b1] [a2 b2] [a3 b3]. unfold cmp_pair. simpl.
    destruct (cmp a1 a2) eqn:E12; try discriminate.
    + apply cmp_eq in E12. subst a2.
      destruct (cmp a1 a3) eqn:E13; try discriminate; auto.
      apply cmp_trans.
    + intros _. destruct (cmp a2 a3) eqn:E23; try discriminate.
      * apply cmp_eq in E23. subst a3. now rewrite E12.
      * intros _. now rewrite (cmp_trans _ _ _ E12 E23).
Defined.

Section Keys.
Context {K : Type} `{Ordered K}.

(** [pd.unique]: the distinct values in order of first appearance. *)
Fixpoint unique (l : list K) : list K :=
  match l with
  | [] => []
  | k :: t => k :: filter (fun x => negb (key_eqb k x)) (unique t)
  end.

(** Ordered insertion that drops a key already present. *)
Fixpoint insert_key (k : K) (l : list K) : list K :=
  match l with
  | [] => [k]
  | h :: t =>
      match cmp k h with
      | Lt => k :: h :: t
      | Eq => h :: t
      | Gt => h :: insert_key k t
      end
  end.

(** The sorted distinct labels of a group-by level. *)
Definition sort_unique (l : list K) : list K := fold_right insert_key [] l.

(** Position of a label in an axis ([Index.get_loc]). *)
Fixpoint get_loc (k : K) (l : list K) : option nat :=
  match l with
  | [] => None
  | h :: t => if key_eqb k h then Some 0%nat
              else option_map S (get_loc k t)
  end.

End Keys.

(* ================================================================== *)
(** ** Tables *)
(* ================================================================== *)

(** A row of [ratings.csv]. *)
Record rating_row := {
  r_userId : Z;
  r_movieId : Z;
  r_rating : Q;
  r_timestamp : Z
}.

(** A row of [movies.csv]; an empty [genres] field is read as missing. *)
Record movie_row := {
  m_movieId : Z;
  m_title : string;
  m_genres : option string
}.

(** A row of [merged_data]. *)
Record merged_row := {
  userId : Z;
  movieId : Z;
  rating : Q;
  timestamp : Z;
  title : string;
  genres : option string
}.

(** A data frame, stored by column: [data] holds one list per entry of
    [columns], each with one cell per entry of [index]. *)
Record DataFrame (R C A : Type) := {
  index : list R;
  columns : list C;
  data : list (list A)
}.

Arguments index {R C A} _.
Arguments columns {R C A} _.
Arguments data {R C A} _.

(** A merged row from a rating and the catalogue row of its movie. *)
Definition merged_of (r : rating_row) (m : movie_row) : merged_row :=
  {| userId := r_userId r; movieId := r_movieId r;
     rating := r_rating r; timestamp := r_timestamp r;
     title := m_title m; genres := m_genres m |}.

(** [pd.merge(ratings, movies, on='movieId')]: the default inner join.  The
    result comes grouped by key, the keys in the order in which the ratings
    first name them; within a key the ratings keep their order, each paired
    with the catalogue rows of that key in catalogue order. *)
Definition merge (ratings : list rating_row) (movies : list movie_row)
  : list merged_row :=
  flat_map
    (fun k =>
       flat_map
         (fun r =>
            map (merged_of r)
                (filter (fun m => Z.eqb k (m_movieId m)) movies))
         (filter (fun r => Z.eqb (r_movieId r) k) ratings))
    (unique (map r_movieId ratings)).

Definition Qsum (l : list Q) : Q := fold_right Qplus 0 l.

(** The default [aggfunc] of [pivot_table]: the sum of the group, taken in
    input order, over its size; without rounding here. *)
Definition mean (l : list Q) : Q := Qsum l / inject_Z (Z.of_nat (length l)).

Definition group_key (r : merged_row) : Z * string := (userId r, title r).

(** The ratings of one group. *)
Definition group_values (rows : list merged_row) (k : Z * string) : list Q :=
  map rating (filter (fun r => key_eqb (group_key r) k) rows).

(** [groupby(['userId','title'])['rating'].mean()]: one entry per distinct
    key, keys sorted. *)
Definition groupby_mean (rows : list merged_row) : list ((Z * string) * Q) :=
  map (fun k => (k, mean (group_values rows k)))
      (sort_unique (map group_key rows)).

Fixpoint lookup {K V} `{Ordered K} (k : K) (l : list (K * V)) : option V :=
  match l with
  | [] => None
  | (k', v) :: t => if key_eqb k k' then Some v else lookup k t
  end.

(** [unstack]: the second key level becomes the columns; both axes carry
    the sorted level values; a pair with no entry is missing. *)
Definition unstack (s : list ((Z * string) * Q))
  : DataFrame Z string (option Q) :=
  let idx := sort_unique (map (fun e => fst (fst e)) s) in
  let cols := sort_unique (map (fun e => snd (fst e)) s) in
  {| index := idx;
     columns := cols;
     data := map (fun t => map (fun u => lookup (u, t) s) idx) cols |}.

(** [pivot_table(index='userId', columns='title', values='rating')]. *)
Definition pivot_table (rows : list merged_row)
  : DataFrame Z string (option Q) :=
  unstack (groupby_mean rows).

Definition fillna {R C} (v : Q) (df : DataFrame R C (option Q))
  : DataFrame R C Q :=
  {| index := index df;
     columns := columns df;
     data := map (map (fun c => match c with Some x => x | None => v end))
                 (data df) |}.

(** Cell 18 of the notebook. *)
Definition movie_matrix (merged_data : list merged_row) : DataFrame Z string Q :=
  fillna 0 (pivot_table merged_data).

(** [df.loc[r, c]]. *)
Definition loc {R C A} `{Ordered R} `{Ordered C}
  (df : DataFrame R C A) (r : R) (c : C) : option A :=
  match get_loc c (columns df), get_loc r (index df) with
  | Some j, Some i =>
      match nth_error (data df) j with
      | Some col => nth_error col i
      | None => None
      end
  | _, _ => None
  end.

(* ================================================================== *)
(** ** Genre features *)
(* ================================================================== *)

(** Python's [s.split(sep)] for a one-character separator: every occurrence
    of the separator cuts, so the result is never empty. *)
Fixpoint str_split (sep : ascii) (s : string) : list string :=
  match s with
  | EmptyString => [EmptyString]
  | String c rest =>
      if Ascii.eqb c sep then EmptyString :: str_split sep rest
      else match str_split sep rest with
           | [] => [String c EmptyString]
           | h :: t => String c h :: t
           end
  end.

(** Cell 26, [movies['genres'].str.split('|')], on one field; a missing
    field stays missing.  On a column that holds no text at all the
    accessor fails, see [genres_are_text]. *)
Definition split_genres (m : movie_row) : option (list string) :=
  option_map (str_split "|"%char) (m_genres m).

(** Cells 29 and 30, [movies.set_index('title')['genres'].explode()]: one
    row per list element, labelled by the title; a missing or empty list
    gives one row holding a missing value. *)
Definition explode (movies : list movie_row) : list (string * option string) :=
  flat_map
    (fun m =>
       match split_genres m with
       | None | Some [] => [(m_title m, None)]
       | Some labels => map (fun l => (m_title m, Some l)) labels
       end)
    movies.

Definition present_labels (s : list (string * option string)) : list string :=
  flat_map (fun e => match snd e with Some l => [l] | None => [] end) s.

Definition indicator (c : string) (v : option string) : Z :=
  match v with
  | Some l => if key_eqb l c then 1%Z else 0%Z
  | None => 0%Z
  end.

(** [pd.get_dummies]: one indicator column per distinct label, labels
    sorted, rows as in the input; a missing value has no indicator set. *)
Definition get_dummies (s : list (string * option string))
  : DataFrame string string Z :=
  let cats := sort_unique (present_labels s) in
  {| index := map fst s;
     columns := cats;
     data := map (fun c => map (fun e => indicator c (snd e)) s) cats |}.

Definition Zsum (l : list Z) : Z := fold_right Z.add 0%Z l.

(** [sum(level=0)]: rows with the same label are added up; groups keep the
    order of first appearance ([groupby(level=0, sort=False)]). *)
Definition sum_level0 {R C} `{Ordered R} (df : DataFrame R C Z)
  : DataFrame R C Z :=
  let groups := unique (index df) in
  {| index := groups;
     columns := columns df;
     data :=
       map (fun col =>
              map (fun g =>
                     Zsum (map snd (filter (fun p => key_eqb (fst p) g)
                                           (combine (index df) col))))
                  groups)
           (data df) |}.

(** [transpose()]. *)
Definition transpose {R C A} (df : DataFrame R C A) : DataFrame C R A :=
  {| index := columns df;
     columns := index df;
     data :=
       map (fun i =>
              flat_map (fun col => match nth_error col i with
                                   | Some x => [x]
                                   | None => []
                                   end)
                       (data df))
           (seq 0 (length (index df))) |}.

(** Cell 30 of the notebook: genres in the rows, titles in the columns. *)
Definition movie_features (movies : list movie_row) : DataFrame string string Z :=
  transpose (sum_level0 (get_dummies (explode movies))).

(** The numeric view [corrwith] computes on. *)
Definition astype_float {R C} (df : DataFrame R C Z) : DataFrame R C Q :=
  {| index := index df;
     columns := columns df;
     data := map (map inject_Z) (data df) |}.

(** How often a title carries a label, over all rows of [movies.csv]. *)
Definition label_count (movies : list movie_row) (t g : string) : Z :=
  Zsum (map (fun e => if key_eqb (fst e) t then indicator g (snd e) else 0%Z)
            (explode movies)).

(* ================================================================== *)
(** ** Correlation and ranking *)
(* ================================================================== *)

(** A correlation score.  [NaN] is the undefined marker.  Pearson's
    coefficient [r = sxy / sqrt (sxx * syy)] is irrational in general, so a
    defined score is stored as [Coef q] with [q = r * |r|], the square of
    [r] carrying the sign of [r].  The map from [r] to [q] is a strictly
    increasing bijection of [[-1, 1]]: scores compare as their [q] do, and
    [r = 1] exactly when [q = 1] (see [coef_R] and [pearson_real]).  The
    rational is kept in lowest terms. *)
Inductive score :=
| NaN
| Coef (q : Q).

Definition is_nan (s : score) : bool :=
  match s with NaN => true | Coef _ => false end.

Definition score_key (s : score) : Q :=
  match s with NaN => 0 | Coef q => q end.

Definition deviations (l : list Q) : list Q :=
  let m := mean l in map (fun x => x - m) l.

Definition dot (a b : list Q) : Q :=
  Qsum (map (fun p => fst p * snd p) (combine a b)).

(** [Series.corr], method ['pearson'], without rounding: the two vectors
    are aligned row by row; a zero variance on either side makes the
    quotient 0/0.  [corrcoef] below is the computation in float64. *)
Definition pearson (x y : list Q) : score :=
  let rows := combine x y in
  let dx := deviations (map fst rows) in
  let dy := deviations (map snd rows) in
  let sxy := dot dx dy in
  let sxx := dot dx dx in
  let syy := dot dy dy in
  if Qeq_bool (sxx * syy) 0 then NaN
  else Coef (Qred (sxy * Qabs sxy / (sxx * syy))).

(** The real number a defined score stands for. *)
Definition coef_R (q : Q) : R :=
  if Qle_bool 0 q then sqrt (Q2R q) else (- sqrt (- Q2R q))%R.

(** Pearson's coefficient as a real number, from the same three sums. *)
Definition pearson_R (x y : list Q) : R :=
  let rows := combine x y in
  let dx := deviations (map fst rows) in
  let dy := deviations (map snd rows) in
  (Q2R (dot dx dy) / sqrt (Q2R (dot dx dx) * Q2R (dot dy dy)))%R.

(** The exceptions the notebook can raise: a label that is not in an axis,
    and the [.str] accessor used on a column that holds no text. *)
Inductive exn (C : Type) :=
| KeyError (key : C)
| AttributeError.

Inductive result (C A : Type) :=
| Ok (a : A)
| Raise (e : exn C).

Arguments Ok {C A} _.
Arguments Raise {C A} _.

(** [df[c]]: the column labelled [c]. *)
Definition getitem {R C A} `{Ordered C} (df : DataFrame R C A) (c : C)
  : option (list A) :=
  match get_loc c (columns df) with
  | Some j => nth_error (data df) j
  | None => None
  end.

(** [df.corrwith(other)]: one score per column, in column order. *)
Definition corrwith {R C} (df : DataFrame R C Q) (other : list Q)
  : list (C * score) :=
  combine (columns df) (map (fun col => pearson other col) (data df)).

(** What numpy promises of [argsort] whatever the [kind]: the indices of
    the input, ordered so that the values ascend.  Nothing is promised on
    the order of equal values for the default kind, ['quicksort']. *)
Definition argsort_contract (argsort : list Q -> list nat) : Prop :=
  forall l,
    Permutation (argsort l) (seq 0 (length l)) /\
    StronglySorted Qle (map (fun i => nth i l 0) (argsort l)).

(** Ordered insertion of index [i] in front of the first index whose value
    is not smaller. *)
Fixpoint insert_index (l : list Q) (i : nat) (sorted : list nat) : list nat :=
  match sorted with
  | [] => [i]
  | j :: t =>
      if Qle_bool (nth i l 0) (nth j l 0) then i :: j :: t
      else j :: insert_index l i t
  end.

(** A stable insertion sort: equal values stay in index order, as they do
    when numpy's quicksort sorts a short array by insertion (see
    [aquicksort]). *)
Definition insertion_argsort (l : list Q) : list nat :=
  fold_right (insert_index l) [] (seq 0 (length l)).

(** Fancy indexing [l[idx]]. *)
Definition take {A} (l : list A) (idx : list nat) : list A :=
  flat_map (fun i => match nth_error l i with
                     | Some x => [x]
                     | None => []
                     end) idx.

(** [pandas.core.sorting.nargsort(items, ascending=False)] on values none
    of which is missing: the values and their positions are reversed, the
    reversed values are argsorted, and the resulting positions are reversed
    again. *)
Definition nargsort_descending (argsort : list Q -> list nat) (items : list Q)
  : list nat :=
  let idx := seq 0 (length items) in
  let non_nans := rev items in
  let non_nan_idx := rev idx in
  rev (take non_nan_idx (argsort non_nans)).

(* ================================================================== *)
(** ** The float64 arithmetic of a score *)
(* ================================================================== *)

(** IEEE 754 binary64: 53 bits of precision, round to nearest even. *)
Definition float64 : Type := spec_float.

Definition prec : Z := 53.
Definition emax : Z := 1024.

Definition add64 : float64 -> float64 -> float64 := SFadd prec emax.
Definition sub64 : float64 -> float64 -> float64 := SFsub prec emax.
Definition mul64 : float64 -> float64 -> float64 := SFmul prec emax.
Definition div64 : float64 -> float64 -> float64 := SFdiv prec emax.
Definition sqrt64 : float64 -> float64 := SFsqrt prec emax.

(** The conversion of an integer, as [astype(float)] and [float(n)] do it. *)
Definition float64_of_Z (z : Z) : float64 := binary_normalize prec emax z 0 false.

Definition zero64 : float64 := S754_zero false.
Definition one64 : float64 := float64_of_Z 1.

(** [pd.isna] on a float. *)
Definition isna (x : float64) : bool :=
  match x with S754_nan => true | _ => false end.

Definition is_zero64 (x : float64) : bool :=
  match x with S754_zero _ => true | _ => false end.

(** The value of a float that is not NaN, as a rational; an infinity
    stands beyond every finite float.  Two floats that are not NaN compare
    as these values do. *)
Definition float64_key (x : float64) : Q :=
  match x with
  | S754_zero _ | S754_nan => 0
  | S754_infinity s => inject_Z (if s then - 2 ^ emax else 2 ^ emax)
  | S754_finite s m e =>
      let z := if s then Z.neg m else Z.pos m in
      match e with
      | Z.neg p => z # (2 ^ p)
      | _ => inject_Z (z * 2 ^ e)
      end
  end.

(** The eight running sums of numpy's unrolled summation loop. *)
Definition acc8 : Type :=
  float64 * float64 * float64 * float64 * float64 * float64 * float64 * float64.

(** numpy's [pairwise_sum] on a block of at most 128 values: eight running
    sums over the full groups of eight, added up as a tree, then the
    leftover values one by one. *)
Fixpoint unrolled_sum (r : acc8) (a : list float64) {struct a} : float64 :=
  let '(r0, r1, r2, r3, r4, r5, r6, r7) := r in
  match a with
  | a0 :: a1 :: a2 :: a3 :: a4 :: a5 :: a6 :: a7 :: rest =>
      unrolled_sum (add64 r0 a0, add64 r1 a1, add64 r2 a2, add64 r3 a3,
                    add64 r4 a4, add64 r5 a5, add64 r6 a6, add64 r7 a7) rest
  | _ =>
      fold_left add64 a
        (add64 (add64 (add64 r0 r1) (add64 r2 r3))
               (add64 (add64 r4 r5) (add64 r6 r7)))
  end.

(** Fewer than eight values are added one by one, from 0. *)
Definition block_sum (a : list float64) : float64 :=
  match a with
  | a0 :: a1 :: a2 :: a3 :: a4 :: a5 :: a6 :: a7 :: rest =>
      unrolled_sum (a0, a1, a2, a3, a4, a5, a6, a7) rest
  | _ => fold_left add64 a zero64
  end.

(** More than 128 values are cut in two, the first part a multiple of
    eight, and the sums of the parts are added.  Both parts are shorter
    than the whole, so a fuel of [length a] is never used up. *)
Fixpoint pairwise_sum (fuel : nat) (a : list float64) : float64 :=
  match fuel with
  | O => block_sum a
  | S fuel' =>
      let n := length a in
      if (128 <? n)%nat then
        let n2 := (n / 2 - (n / 2) mod 8)%nat in
        add64 (pairwise_sum fuel' (firstn n2 a))
              (pairwise_sum fuel' (skipn n2 a))
      else block_sum a
  end.

(** [np.add.reduce] along a contiguous axis: the pairwise sum, added to the
    identity. *)
Definition sum64 (a : list float64) : float64 :=
  add64 zero64 (pairwise_sum (length a) a).

(** [ndarray.mean]. *)
Definition mean64 (a : list float64) : float64 :=
  div64 (sum64 a) (float64_of_Z (Z.of_nat (length a))).

(** [X -= avg[:, None]] in [np.cov]. *)
Definition deviations64 (a : list float64) : list float64 :=
  let avg := mean64 a in map (fun x => sub64 x avg) a.

(** One entry of [dot(X, X.T)] in [np.cov].  numpy hands this product to
    the BLAS library, which is free to add the products up in another
    order; they are added from left to right here. *)
Definition dot64 (a b : list float64) : float64 :=
  fold_left (fun acc p => add64 acc (mul64 (fst p) (snd p))) (combine a b)
            zero64.

(** [np.clip(c, -1, 1)]; NaN passes through. *)
Definition clip64 (x : float64) : float64 :=
  if SFltb x (SFopp one64) then SFopp one64
  else if SFltb one64 x then one64
  else x.

(** [np.corrcoef(x, y)[0, 1]]: the covariance matrix of [np.cov] with its
    factor [1 / (n - 1)] (the factor is [1 / 0.0] for a single row), divided
    by the standard deviation of [x], then by that of [y], then clipped. *)
Definition corrcoef (x y : list float64) : float64 :=
  let n := length x in
  let fact := if (n <=? 1)%nat then zero64
              else float64_of_Z (Z.of_nat n - 1) in
  let dx := deviations64 x in
  let dy := deviations64 y in
  let scale := div64 one64 fact in
  let c00 := mul64 (dot64 dx dx) scale in
  let c01 := mul64 (dot64 dx dy) scale in
  let c11 := mul64 (dot64 dy dy) scale in
  clip64 (div64 (div64 c01 (sqrt64 c00)) (sqrt64 c11)).

(** [Series.corr] and [nanops.nancorr]: the rows where either value is
    missing are left out; with no row left the score is NaN. *)
Definition nancorr (a b : list float64) : float64 :=
  let valid := filter (fun p => negb (isna (fst p)) && negb (isna (snd p)))
                      (combine a b) in
  match valid with
  | [] => S754_nan
  | _ :: _ => corrcoef (map fst valid) (map snd valid)
  end.

(** [df.corrwith(other)] in float64: [other.corr(column)] for every column,
    in column order. *)
Definition corrwith64 {R C} (df : DataFrame R C float64) (other : list float64)
  : list (C * float64) :=
  combine (columns df) (map (fun col => nancorr other col) (data df)).

(** The float64 view of an integer frame. *)
Definition astype_float64 {R C} (df : DataFrame R C Z) : DataFrame R C float64 :=
  {| index := index df;
     columns := columns df;
     data := map (map float64_of_Z) (data df) |}.

(* ================================================================== *)
(** ** numpy's default sort *)
(* ================================================================== *)

Definition Qlt_bool (a b : Q) : bool := negb (Qle_bool b a).

(** [argsort(kind='quicksort')] is numpy's [aquicksort]: an introsort on an
    array [t] of indices into the values [v].  A range of more than 17
    indices is partitioned around the median of its first, middle and last
    value; a shorter range is sorted by insertion; a range reached after
    more than [2 * floor(log2 n)] partitions is sorted by [aheapsort]. *)
Section Npysort.
Variable v : list Q.

(** [v[t[i]]]. *)
Definition value_at (t : list nat) (i : nat) : Q := nth (nth i t 0%nat) v 0.

(** [t[i] = x]. *)
Fixpoint store (t : list nat) (i x : nat) : list nat :=
  match t, i with
  | [], _ => []
  | _ :: rest, O => x :: rest
  | h :: rest, S i' => h :: store rest i' x
  end.

Definition swap (t : list nat) (i j : nat) : list nat :=
  store (store t i (nth j t 0%nat)) j (nth i t 0%nat).

(** [if (v[t[i]] < v[t[j]]) swap(t[i], t[j])]. *)
Definition swap_if_less (t : list nat) (i j : nat) : list nat :=
  if Qlt_bool (value_at t i) (value_at t j) then swap t i j else t.

(** [while (v[t[pi]] < vp) ++pi]. *)
Fixpoint scan_up (fuel : nat) (t : list nat) (vp : Q) (pi : nat) : nat :=
  match fuel with
  | O => pi
  | S fuel' =>
      if Qlt_bool (value_at t pi) vp then scan_up fuel' t vp (S pi) else pi
  end.

(** [while (vp < v[t[pj]]) --pj]. *)
Fixpoint scan_down (fuel : nat) (t : list nat) (vp : Q) (pj : nat) : nat :=
  match fuel with
  | O => pj
  | S fuel' =>
      if Qlt_bool vp (value_at t pj) then scan_down fuel' t vp (pred pj) else pj
  end.

(** The two scans run towards each other and swap until they meet. *)
Fixpoint partition_loop (fuel : nat) (t : list nat) (vp : Q) (pi pj : nat)
  : list nat * nat :=
  match fuel with
  | O => (t, pi)
  | S fuel' =>
      let pi' := scan_up (length t) t vp (S pi) in
      let pj' := scan_down (length t) t vp (pred pj) in
      if (pj' <=? pi')%nat then (t, pi')
      else partition_loop fuel' (swap t pi' pj') vp pi' pj'
  end.

(** One partition of the range [pl .. pr]; returns the place of the
    pivot. *)
Definition quicksort_partition (t : list nat) (pl pr : nat) : list nat * nat :=
  let pm := (pl + (pr - pl) / 2)%nat in
  let t := swap_if_less t pm pl in
  let t := swap_if_less t pr pm in
  let t := swap_if_less t pm pl in
  let vp := value_at t pm in
  let t := swap t pm (pr - 1)%nat in
  let '(t, pi) := partition_loop (length t) t vp pl (pr - 1)%nat in
  (swap t pi (pr - 1)%nat, pi).

(** [while (pj > pl && vp < v[t[pj - 1]]) t[pj] = t[pj - 1], --pj]. *)
Fixpoint shift_up (fuel : nat) (t : list nat) (pl : nat) (vp : Q) (pj : nat)
  : list nat * nat :=
  match fuel with
  | O => (t, pj)
  | S fuel' =>
      if (pl <? pj)%nat && Qlt_bool vp (value_at t (pj - 1)%nat)
      then shift_up fuel' (store t pj (nth (pj - 1)%nat t 0%nat)) pl vp
                    (pj - 1)%nat
      else (t, pj)
  end.

Definition insert_at (pl : nat) (t : list nat) (pi : nat) : list nat :=
  let vi := nth pi t 0%nat in
  let '(t, pj) := shift_up (length t) t pl (nth vi v 0) pi in
  store t pj vi.

(** The insertion sort of the range [pl .. pr]. *)
Definition insertion_sort (t : list nat) (pl pr : nat) : list nat :=
  fold_left (insert_at pl) (seq (S pl) (pr - pl)%nat) t.

(** The sift-down of [aheapsort], on a heap [a] indexed from 1. *)
Fixpoint sift_down (fuel : nat) (a : list nat) (tmp i j n : nat) : list nat :=
  match fuel with
  | O => store a i tmp
  | S fuel' =>
      if (j <=? n)%nat then
        let j := if (j <? n)%nat && Qlt_bool (value_at a j) (value_at a (S j))
                 then S j else j in
        if Qlt_bool (nth tmp v 0) (value_at a j)
        then sift_down fuel' (store a i (nth j a 0%nat)) tmp j (j + j)%nat n
        else store a i tmp
      else store a i tmp
  end.

Definition heapify (n : nat) (a : list nat) (l : nat) : list nat :=
  sift_down n a (nth l a 0%nat) l (2 * l)%nat n.

Definition extract_max (a : list nat) (n : nat) : list nat :=
  let tmp := nth n a 0%nat in
  let a := store a n (nth 1 a 0%nat) in
  sift_down n a tmp 1%nat 2%nat (n - 1)%nat.

(** [aheapsort] on the [n] indices from [pl] on. *)
Definition aheapsort (t : list nat) (pl n : nat) : list nat :=
  let a := 0%nat :: firstn n (skipn pl t) in
  let a := fold_left (heapify n) (rev (seq 1 (n / 2)%nat)) a in
  let a := fold_left extract_max (rev (seq 2 (n - 1)%nat)) a in
  firstn pl t ++ tl a ++ skipn (pl + n)%nat t.

(** The loop of [aquicksort].  [stack] holds the ranges put aside, each with
    its depth budget; [top] tells that a range has just been taken from the
    stack, which is when the budget is looked at.  Every turn partitions a
    range or finishes one, so [2 * n + 2] turns are enough for [n] values. *)
Fixpoint quicksort_loop (fuel : nat) (t : list nat) (pl pr : nat) (cdepth : Z)
  (stack : list (nat * nat * Z)) (top : bool) : list nat :=
  match fuel with
  | O => t
  | S fuel' =>
      let stack_pop (t : list nat) :=
        match stack with
        | [] => t
        | (pl', pr', cdepth') :: rest =>
            quicksort_loop fuel' t pl' pr' cdepth' rest true
        end in
      if top && (cdepth <? 0)%Z then
        stack_pop (aheapsort t pl (pr - pl + 1)%nat)
      else if (16 <? pr - pl)%nat then
        let '(t, pi) := quicksort_partition t pl pr in
        let cdepth := (cdepth - 1)%Z in
        if (pi - pl <? pr - pi)%nat
        then quicksort_loop fuel' t pl (pi - 1)%nat cdepth
                            ((S pi, pr, cdepth) :: stack) false
        else quicksort_loop fuel' t (S pi) pr cdepth
                            ((pl, (pi - 1)%nat, cdepth) :: stack) false
      else stack_pop (insertion_sort t pl pr)
  end.

Definition aquicksort : list nat :=
  let num := length v in
  quicksort_loop (2 * num + 2)%nat (seq 0 num) 0%nat (num - 1)%nat
                 (2 * Z.log2 (Z.of_nat num))%Z [] true.

End Npysort.

(** Cell 26 uses the [.str] accessor, which wants a column of text.
    [read_csv] types a column whose fields are all missing as float64, and
    the accessor then raises; a column without any row is still text. *)
Definition genres_are_text (movies : list movie_row) : bool :=
  match movies with
  | [] => true
  | _ :: _ =>
      existsb (fun m => match m_genres m with Some _ => true | None => false end)
              movies
  end.

Arguments AttributeError {C}.

Section Ranking.
Variable argsort : list Q -> list nat.

(** [Series.sort_values(ascending=False)] with the defaults
    [kind='quicksort'] and [na_position='last']: the order of the values
    that are not missing is that of [nargsort], the missing values follow in
    their original order.  [isna] tells a missing value, [key] gives the
    number a value is compared by. *)
Definition sort_values_by {A} (isna : A -> bool) (key : A -> Q) (s : list A)
  : list A :=
  let good := filter (fun e => negb (isna e)) s in
  let bad := filter isna s in
  take good (nargsort_descending argsort (map key good)) ++ bad.

Definition sort_values {C} (s : list (C * score)) : list (C * score) :=
  sort_values_by (fun e => is_nan (snd e)) (fun e => score_key (snd e)) s.

Definition sort_values64 {C} (s : list (C * float64)) : list (C * float64) :=
  sort_values_by (fun e => isna (snd e)) (fun e => float64_key (snd e)) s.

(** Cells 20 and 31: [df.corrwith(df[movie]).sort_values(ascending=False)]. *)
Definition similarity_ranker {R C} `{Ordered C}
  (df : DataFrame R C Q) (movie : C) : result C (list (C * score)) :=
  match getitem df movie with
  | None => Raise (KeyError movie)
  | Some target => Ok (sort_values (corrwith df target))
  end.

(** The same two cells in float64. *)
Definition similarity_ranker64 {R C} `{Ordered C}
  (df : DataFrame R C float64) (movie : C) : result C (list (C * float64)) :=
  match getitem df movie with
  | None => Raise (KeyError movie)
  | Some target => Ok (sort_values64 (corrwith64 df target))
  end.

(** Cell 20, from the two input files. *)
Definition collaborative_recommendation
  (ratings : list rating_row) (movies : list movie_row) (movie : string)
  : result string (list (string * score)) :=
  similarity_ranker (movie_matrix (merge ratings movies)) movie.

(** Cells 26 to 31.  The split of cell 26 comes first and can fail. *)
Definition content_recommendation (movies : list movie_row) (movie : string)
  : result string (list (string * score)) :=
  if genres_are_text movies
  then similarity_ranker (astype_float (movie_features movies)) movie
  else Raise AttributeError.

(** Cells 26 to 31 in float64; the genre counts are small integers, which
    float64 holds exactly. *)
Definition content_recommendation64 (movies : list movie_row) (movie : string)
  : result string (list (string * float64)) :=
  if genres_are_text movies
  then similarity_ranker64 (astype_float64 (movie_features movies)) movie
  else Raise AttributeError.

End Ranking.

(** *** Properties of a ranking, as predicates *)

(** [a] may stand before [b] in a descending ranking. *)
Definition score_ge (a b : score) : Prop :=
  match a, b with
  | _, NaN => True
  | NaN, Coef _ => False
  | Coef x, Coef y => y <= x
  end.

Definition constant (l : list Q) : Prop :=
  forall x y, In x l -> In y l -> x == y.

(** [a] may stand before [b] in a descending order with the missing values
    last. *)
Definition may_precede {A} (isna : A -> bool) (key : A -> Q) (a b : A) : Prop :=
  match isna a, isna b with
  | _, true => True
  | true, false => False
  | false, false => key b <= key a
  end.

(** [a] may stand before [b] in a descending float64 ranking. *)
Definition score_ge64 (a b : float64) : Prop := may_precede isna float64_key a b.

(** A score that is NaN or lies between -1 and 1, as the float comparison
    tells it: it is neither below -1 nor above 1. *)
Definition in_unit_range (x : float64) : Prop :=
  SFltb x (SFopp one64) = false /\ SFltb one64 x = false.


(** The target heads the ranking with a score of 1. *)
Definition target_on_top {C} (movie : C) (out : list (C * float64)) : Prop :=
  exists rest, out = (movie, one64) :: rest.

Definition same_score64 (a b : float64) : Prop :=
  match isna a, isna b with
  | true, true => True
  | false, false => float64_key a == float64_key b
  | _, _ => False
  end.

(** Entries with equal scores stand in the order of their columns. *)
Definition ties_in_column_order {C} `{Ordered C}
  (cols : list C) (out : list (C * float64)) : Prop :=
  forall i j a b,
    (i < j)%nat ->
    nth_error out i = Some a -> nth_error out j = Some b ->
    same_score64 (snd a) (snd b) ->
    exists p q, get_loc (fst a) cols = Some p /\
                get_loc (fst b) cols = Some q /\ (p < q)%nat.

(** A float that is a zero or NaN. *)
Definition zero_or_nan (x : float64) : Prop :=
  match x with
  | S754_zero _ | S754_nan => True
  | _ => False
  end.

(** A float that is an infinity or NaN. *)
Definition infinity_or_nan (x : float64) : Prop :=
  match x with
  | S754_infinity _ | S754_nan => True
  | _ => False
  end.

(** No cell of the frame is missing. *)
Definition dense {R C} (df : DataFrame R C float64) : Prop :=
  Forall (Forall (fun x => isna x = false)) (data df).

(** The ratings one user gave one title, in input order. *)
Definition ratings_of (rows : list merged_row) (u : Z) (t : string) : list Q :=
  map rating
      (filter (fun r => Z.eqb (userId r) u && String.eqb (title r) t) rows).

(* ================================================================== *)
(** ** Sample inputs *)
(* ================================================================== *)

Definition rated (u : Z) (t : string) (r : Q) : merged_row :=
  {| userId := u; movieId := 0; rating := r; timestamp := 0;
     title := t; genres := None |}.

(** Three users, two titles with opposite tastes. *)
Definition three_users : list merged_row :=
  [rated 1 "A" 5; rated 1 "B" 1; rated 2 "A" 4; rated 2 "B" 2;
   rated 3 "A" 1; rated 3 "B" 5]%string.

(** Keys arriving in descending order. *)
Definition late_keys_first : list merged_row :=
  [rated 2 "B" 5; rated 1 "A" 3]%string.

(** User 2 rated title "B" twice. *)
Definition rated_twice : list merged_row :=
  [rated 2 "B" 5; rated 1 "A" 3; rated 2 "B" 4]%string.

(** Two users; titles "A" and "B" get the same ratings, title "C" the same
    rating from both. *)
Definition twin_titles : list merged_row :=
  [rated 1 "A" 1; rated 2 "A" 2; rated 1 "B" 1; rated 2 "B" 2;
   rated 1 "C" 3; rated 2 "C" 3]%string.

Definition rating_of (u m : Z) (r : Q) : rating_row :=
  {| r_userId := u; r_movieId := m; r_rating := r; r_timestamp := 0 |}.

Definition item (i : Z) (t g : string) : movie_row :=
  {| m_movieId := i; m_title := t; m_genres := Some g |}.

(** A catalogue where two items share the title "Emma" and item 4 has a
    title of its own; only items 1 and 2 are rated. *)
Definition catalogue : list movie_row :=
  [item 1 "Heat" "Action|Crime"; item 2 "Emma" "Comedy|Drama";
   item 3 "Emma" "Comedy|Romance"; item 4 "Solaris" "Drama|Sci-Fi"]%string.

Definition few_ratings : list rating_row :=
  [rating_of 1 1 4; rating_of 2 1 5; rating_of 1 2 3; rating_of 2 2 1].

(** The example of the specification. *)
Definition three_movies : list movie_row :=
  [item 1 "M1" "Comedy|Drama"; item 2 "M2" "Drama";
   item 3 "M3" "Comedy"]%string.

(** A genre field that names one label twice. *)
Definition repeated_label : list movie_row :=
  [item 1 "M1" "Comedy|Comedy"; item 2 "M2" "Drama"]%string.

(** User 1 rates items 2 and 3 of the [catalogue], both titled "Emma". *)
Definition emma_twice : list rating_row :=
  [rating_of 1 2 5; rating_of 1 3 1].

(** A float64 frame from integer cells. *)
Definition frame64 (idx : list Z) (cols : list string) (cells : list (list Z))
  : DataFrame Z string float64 :=
  astype_float64 {| index := idx; columns := cols; data := cells |}.

(** Two rows: column "A" holds 1 and 2, column "B" holds 1 and 4. *)
Definition two_columns : DataFrame Z string float64 :=
  frame64 [1; 2]%Z ["A"; "B"]%string [[1; 2]; [1; 4]]%Z.

(** Two rows: "A" and "B" hold the same cells, "C" holds 3 twice. *)
Definition twin_columns : DataFrame Z string float64 :=
  frame64 [1; 2]%Z ["A"; "B"; "C"]%string [[1; 2]; [1; 2]; [3; 3]]%Z.

(** 0.9999999999999999, the float64 next below 1. *)
Definition below_one64 : float64 := S754_finite false 9007199254740991 (-53).

(** 1.6666666666666667, the float64 nearest to 5/3. *)
Definition five_thirds : float64 := div64 (float64_of_Z 5) (float64_of_Z 3).

(** Seven rows: column "A" holds [five_thirds] seven times, column "B"
    counts from 1 to 7. *)
Definition seven_rows : DataFrame Z string float64 :=
  {| index := [1; 2; 3; 4; 5; 6; 7]%Z;
     columns := ["A"; "B"]%string;
     data := [repeat five_thirds 7;
              map float64_of_Z [1; 2; 3; 4; 5; 6; 7]%Z] |}.

Definition eighteen_titles : list string :=
  ["T01"; "T02"; "T03"; "T04"; "T05"; "T06"; "T07"; "T08"; "T09"; "T10";
   "T11"; "T12"; "T13"; "T14"; "T15"; "T16"; "T17"; "T18"]%string.

(** Two rows and eighteen columns that all hold 1 and 2. *)
Definition eighteen_columns : DataFrame Z string float64 :=
  frame64 [1; 2]%Z eighteen_titles (repeat [1; 2]%Z 18).

(* ================================================================== *)
(** ** The rest of the notebook *)
(* ================================================================== *)

(** Cell 8: [Series.nunique()], the number of distinct values. *)
Definition nunique {K} `{Ordered K} (l : list K) : nat := length (unique l).

(** [head(n)]: the first [n] rows. *)
Definition head {A} (n : nat) (l : list A) : list A := firstn n l.

(** Cell 14: [merged_data.sort_values('rating', ascending=False)]. *)
Definition sort_by_rating (argsort : list Q -> list nat)
  (merged_data : list merged_row) : list merged_row :=
  take merged_data (nargsort_descending argsort (map rating merged_data)).

(** The last line of cells 20 and 31:
    [pd.DataFrame(ranking, columns=['corr']).head(10)]. *)
Definition top_ten {R C} `{Ordered C} (argsort : list Q -> list nat)
  (df : DataFrame R C Q) (movie : C) : result C (list (C * score)) :=
  match similarity_ranker argsort df movie with
  | Ok ranking => Ok (head 10 ranking)
  | Raise e => Raise e
  end.

(** Python's [sep.join(parts)]. *)
Fixpoint str_join (sep : ascii) (parts : list string) : string :=
  match parts with
  | [] => EmptyString
  | p :: rest =>
      match rest with
      | [] => p
      | _ :: _ => String.append p (String sep (str_join sep rest))
      end
  end.

(** The character [c] occurs in [s]. *)
Fixpoint contains (c : ascii) (s : string) : Prop :=
  match s with
  | EmptyString => False
  | String a rest => a = c \/ contains c rest
  end.

(** The genre labels of one catalogue row, after the split of cell 26. *)
Definition labels_of (m : movie_row) : list string :=
  match split_genres m with
  | Some labels => labels
  | None => []
  end.

(** Two cells agree: both missing, or both present with equal values. *)
Definition same_cell (a b : option Q) : Prop :=
  match a, b with
  | None, None => True
  | Some x, Some y => x == y
  | _, _ => False
  end.

(** A frame is rectangular: one data column per column label, one cell per
    row label in each. *)
Definition rectangular {R C A} (df : DataFrame R C A) : Prop :=
  length (data df) = length (columns df) /\
  Forall (fun col => length col = length (index df)) (data df).

(** How often one catalogue row names a label. *)
Definition label_occurrences (g : string) (m : movie_row) : Z :=
  Z.of_nat (count_occ string_dec (labels_of m) g).

(** One user rating two titles. *)
Definition lone_user : list merged_row :=
  [rated 1 "A" 3; rated 1 "B" 5]%string.

(** The title the catalogue gives a movie id (the first row with that id). *)
Definition title_of (movies : list movie_row) (i : Z) : string :=
  match find (fun m => Z.eqb i (m_movieId m)) movies with
  | Some m => m_title m
  | None => EmptyString
  end.

(** Two users and twelve titles. *)
Definition twelve_titles : list merged_row :=
  flat_map (fun p : string * Q => [rated 1 (fst p) (snd p); rated 2 (fst p) 3])
    [("T01", 1); ("T02", 5); ("T03", 2); ("T04", 4); ("T05", 1); ("T06", 5);
     ("T07", 2); ("T08", 4); ("T09", 1); ("T10", 5); ("T11", 2);
     ("T12", 4)]%string.

(* ================================================================== *)
(** * Properties *)
(* ================================================================== *)

Lemma cmp_refl {K} `{Ordered K} (a : K) : cmp a a = Eq.
Proof. apply cmp_eq. reflexivity. Qed.

Lemma cmp_gt_lt {K} `{Ordered K} (a b : K) : cmp a b = Gt -> cmp b a = Lt.
Proof. intros E. rewrite cmp_antisym, E. reflexivity. Qed.

Lemma cmp_lt_gt {K} `{Ordered K} (a b : K) : cmp a b = Lt -> cmp b a = Gt.
Proof. intros E. rewrite cmp_antisym, E. reflexivity. Qed.

Section KeyFacts.
Context {K : Type} `{Ordered K}.

Lemma key_eqb_eq (a b : K) : key_eqb a b = true <-> a = b.
Proof.
  unfold key_eqb. rewrite <- cmp_eq. destruct (cmp a b); split; congruence.
Qed.

Lemma key_eqb_refl (a : K) : key_eqb a a = true.
Proof. now apply key_eqb_eq. Qed.

Lemma key_eqb_neq (a b : K) : key_eqb a b = false <-> a <> b.
Proof.
  rewrite <- key_eqb_eq. destruct (key_eqb a b); split; congruence.
Qed.

Lemma key_eq_dec (a b : K) : {a = b} + {a <> b}.
Proof.
  destruct (key_eqb a b) eqn:E.
  - left. now apply key_eqb_eq.
  - right. now apply key_eqb_neq.
Defined.

Lemma unique_In (l : list K) (x : K) : In x (unique l) <-> In x l.
Proof.
  induction l as [|k t IH]; simpl; [tauto|].
  rewrite filter_In, IH.
  destruct (key_eq_dec k x) as [->|N].
  - tauto.
  - assert (key_eqb k x = false) as -> by now apply key_eqb_neq.
    simpl. tauto.
Qed.

Lemma unique_NoDup (l : list K) : NoDup (unique l).
Proof.
  induction l as [|k t IH]; simpl; constructor.
  - rewrite filter_In. intros [_ E]. now rewrite key_eqb_refl in E.
  - now apply NoDup_filter.
Qed.

Lemma insert_key_In (k x : K) (l : list K) :
  In x (insert_key k l) <-> x = k \/ In x l.
Proof.
  induction l as [|h t IH]; simpl.
  - intuition.
  - destruct (cmp k h) eqn:E; simpl.
    + apply cmp_eq in E. subst h. intuition.
    + intuition.
    + rewrite IH. intuition.
Qed.

Lemma sort_unique_In (l : list K) (x : K) : In x (sort_unique l) <-> In x l.
Proof.
  induction l as [|k t IH]; simpl; [tauto|].
  rewrite insert_key_In, IH. intuition.
Qed.

Lemma insert_key_sorted (k : K) (l : list K) :
  StronglySorted key_lt l -> StronglySorted key_lt (insert_key k l).
Proof.
  induction 1 as [|h t Ht IH Hh]; simpl.
  - repeat constructor.
  - destruct (cmp k h) eqn:E.
    + now constructor.
    + constructor; [now constructor|].
      constructor; [exact E|].
      rewrite Forall_forall in *. intros x Hx.
      eapply cmp_trans; [exact E | now apply Hh].
    + constructor; [exact IH|].
      rewrite Forall_forall in *. intros x Hx.
      apply insert_key_In in Hx. destruct Hx as [->|Hx].
      * now apply cmp_gt_lt.
      * now apply Hh.
Qed.

Lemma sort_unique_sorted (l : list K) : StronglySorted key_lt (sort_unique l).
Proof.
  induction l; simpl; [constructor | now apply insert_key_sorted].
Qed.

Lemma sorted_NoDup (l : list K) : StronglySorted key_lt l -> NoDup l.
Proof.
  induction 1 as [|h t Ht IH Hh]; constructor; auto.
  intros Hin. rewrite Forall_forall in Hh. specialize (Hh _ Hin).
  unfold key_lt in Hh. now rewrite cmp_refl in Hh.
Qed.

Lemma sort_unique_NoDup (l : list K) : NoDup (sort_unique l).
Proof. apply sorted_NoDup, sort_unique_sorted. Qed.

Lemma sort_unique_length (l : list K) :
  length (sort_unique l) = length (unique l).
Proof.
  apply Permutation_length, NoDup_Permutation.
  - apply sort_unique_NoDup.
  - apply unique_NoDup.
  - intros x. now rewrite sort_unique_In, unique_In.
Qed.

Lemma get_loc_Some (k : K) (l : list K) :
  In k l -> exists i, get_loc k l = Some i /\ nth_error l i = Some k.
Proof.
  induction l as [|h t IH]; simpl; [tauto|].
  intros Hin. destruct (key_eqb k h) eqn:E.
  - exists 0%nat. apply key_eqb_eq in E. now subst.
  - destruct Hin as [->|Hin]; [now rewrite key_eqb_refl in E|].
    destruct (IH Hin) as (i & -> & Hi). now exists (S i).
Qed.

Lemma get_loc_None (k : K) (l : list K) : ~ In k l <-> get_loc k l = None.
Proof.
  induction l as [|h t IH]; simpl; [tauto|].
  destruct (key_eqb k h) eqn:E.
  - apply key_eqb_eq in E. subst. split; [tauto | discriminate].
  - apply key_eqb_neq in E.
    destruct (get_loc k t) eqn:G; simpl.
    + split; [|discriminate]. intros N.
      assert (~ In k t) as N' by tauto. apply IH in N'. discriminate.
    + split; [reflexivity|]. intros _ [E'|Hin]; [congruence|].
      now apply (proj2 IH).
Qed.

End KeyFacts.

(** *** Facts about the pivot *)

Lemma loc_tabulate {R C A} `{Ordered R} `{Ordered C}
  (idx : list R) (cols : list C) (f : R -> C -> A) (r : R) (c : C) :
  In r idx -> In c cols ->
  loc {| index := idx; columns := cols;
         data := map (fun c => map (fun r => f r c) idx) cols |} r c
  = Some (f r c).
Proof.
  intros Hr Hc. unfold loc. simpl.
  destruct (get_loc_Some c cols Hc) as (j & -> & Hj).
  destruct (get_loc_Some r idx Hr) as (i & -> & Hi).
  rewrite nth_error_map, Hj. simpl.
  rewrite nth_error_map, Hi. reflexivity.
Qed.

Lemma lookup_map_key {K V} `{Ordered K} (f : K -> V) (k : K) (l : list K) :
  lookup k (map (fun x => (x, f x)) l) = if in_dec key_eq_dec k l then Some (f k) else None.
Proof.
  induction l as [|h t IH]; simpl; [reflexivity|].
  destruct (key_eqb k h) eqn:E.
  - apply key_eqb_eq in E. subst h.
    destruct (key_eq_dec k k); [reflexivity | congruence].
  - apply key_eqb_neq in E. rewrite IH.
    destruct (key_eq_dec h k); [congruence|].
    destruct (in_dec key_eq_dec k t); reflexivity.
Qed.

Lemma groupby_level_In {L} `{Ordered L} (f : Z * string -> L)
  (rows : list merged_row) (x : L) :
  In x (sort_unique (map (fun e => f (fst e)) (groupby_mean rows)))
  <-> In x (map (fun r => f (group_key r)) rows).
Proof.
  rewrite sort_unique_In, !in_map_iff. split.
  - intros (e & <- & He). unfold groupby_mean in He.
    apply in_map_iff in He. destruct He as (k & <- & Hk).
    apply (proj1 (sort_unique_In _ _)) in Hk.
    apply in_map_iff in Hk. destruct Hk as (r & <- & Hr).
    exists r. split; [reflexivity | exact Hr].
  - intros (r & <- & Hr).
    exists (group_key r, mean (group_values rows (group_key r))).
    split; [reflexivity|]. unfold groupby_mean.
    apply in_map_iff. exists (group_key r). split; [reflexivity|].
    apply sort_unique_In. now apply in_map.
Qed.

Lemma pivot_index_In (rows : list merged_row) (u : Z) :
  In u (index (movie_matrix rows)) <-> In u (map userId rows).
Proof. exact (groupby_level_In fst rows u). Qed.

Lemma pivot_columns_In (rows : list merged_row) (t : string) :
  In t (columns (movie_matrix rows)) <-> In t (map title rows).
Proof. exact (groupby_level_In snd rows t). Qed.

Lemma loc_fillna {R C} `{Ordered R} `{Ordered C}
  (v : Q) (df : DataFrame R C (option Q)) (r : R) (c : C) :
  loc (fillna v df) r c =
  option_map (fun x => match x with Some q => q | None => v end) (loc df r c).
Proof.
  unfold loc, fillna. simpl.
  destruct (get_loc c (columns df)) as [j|]; [|reflexivity].
  destruct (get_loc r (index df)) as [i|]; [|reflexivity].
  rewrite nth_error_map.
  destruct (nth_error (data df) j) as [col|]; simpl; [|reflexivity].
  now rewrite nth_error_map.
Qed.

(** Every cell of the filled pivot, in terms of the input rows. *)
Lemma pivot_cell (rows : list merged_row) (u : Z) (t : string) :
  In u (index (movie_matrix rows)) -> In t (columns (movie_matrix rows)) ->
  loc (movie_matrix rows) u t =
  Some (if in_dec key_eq_dec (u, t) (map group_key rows)
        then mean (group_values rows (u, t)) else 0).
Proof.
  intros Hu Ht. unfold movie_matrix. rewrite loc_fillna.
  unfold pivot_table, unstack.
  rewrite (loc_tabulate _ _ (fun u t => lookup (u, t) (groupby_mean rows)) u t Hu Ht).
  simpl. f_equal. unfold groupby_mean.
  rewrite (lookup_map_key (fun k => mean (group_values rows k))).
  destruct (in_dec key_eq_dec (u, t) (sort_unique (map group_key rows))) as [i|n];
    destruct (in_dec key_eq_dec (u, t) (map group_key rows)) as [i'|n'];
    try reflexivity.
  - apply (proj1 (sort_unique_In _ _)) in i. contradiction.
  - apply (proj2 (sort_unique_In _ _)) in i'. contradiction.
Qed.


(** *** Groups of one rating *)

Lemma mean_singleton (x : Q) : mean [x] == x.
Proof. unfold mean. simpl. field. Qed.

Lemma filter_key_singleton {A K} `{Ordered K} (f : A -> K) (l : list A) (r : A) :
  NoDup (map f l) -> In r l ->
  filter (fun x => key_eqb (f x) (f r)) l = [r].
Proof.
  induction l as [|h t IH]; simpl; [tauto|].
  intros Hnd Hin. inversion Hnd as [|? ? Hnot Hnd']; subst.
  destruct Hin as [->|Hin].
  - rewrite key_eqb_refl. f_equal.
    clear IH Hnd. induction t as [|h t IHt]; simpl; [reflexivity|].
    assert (key_eqb (f h) (f r) = false) as ->.
    { apply key_eqb_neq. intros E. apply Hnot. left. exact E. }
    apply IHt.
    + intros Hin'. apply Hnot. now right.
    + now inversion Hnd'.
  - assert (key_eqb (f h) (f r) = false) as ->.
    { apply key_eqb_neq. intros E. apply Hnot. rewrite E. now apply in_map. }
    now apply IH.
Qed.

Lemma group_values_ratings_of (rows : list merged_row) (u : Z) (t : string) :
  group_values rows (u, t) = ratings_of rows u t.
Proof.
  unfold group_values, ratings_of. f_equal. apply filter_ext. intros r.
  destruct (key_eqb (group_key r) (u, t)) eqn:E.
  - apply key_eqb_eq in E. unfold group_key in E. inversion E; subst.
    now rewrite Z.eqb_refl, String.eqb_refl.
  - apply key_eqb_neq in E. unfold group_key in E.
    destruct (Z.eqb_spec (userId r) u) as [E1|]; [|reflexivity].
    destruct (String.eqb_spec (title r) t) as [E2|]; [|reflexivity].
    congruence.
Qed.

Lemma group_values_nonempty (rows : list merged_row) (k : Z * string) :
  group_values rows k <> [] <-> In k (map group_key rows).
Proof.
  unfold group_values. split.
  - intros Hne.
    destruct (filter (fun r => key_eqb (group_key r) k) rows) as [|r l] eqn:E;
      [now destruct Hne|].
    assert (In r (r :: l)) as Hin by now left.
    rewrite <- E in Hin. apply filter_In in Hin. destruct Hin as [Hin Hk].
    apply key_eqb_eq in Hk. subst k. now apply in_map.
  - intros Hin Hnil. apply in_map_iff in Hin. destruct Hin as (r & <- & Hr).
    assert (In r (filter (fun r0 => key_eqb (group_key r0) (group_key r)) rows)) as Hf.
    { apply filter_In. split; [exact Hr | apply key_eqb_refl]. }
    destruct (filter (fun r0 => key_eqb (group_key r0) (group_key r)) rows);
      [destruct Hf | discriminate].
Qed.

(** *** Sums of products *)

Lemma dot_cons (x y : Q) (a b : list Q) : dot (x :: a) (y :: b) = x * y + dot a b.
Proof. reflexivity. Qed.

Lemma dot_nil_r (a : list Q) : dot a [] = 0.
Proof. destruct a; reflexivity. Qed.

Lemma dot_self_nonneg (a : list Q) : 0 <= dot a a.
Proof.
  induction a as [|x a IH]; [apply Qle_refl|].
  rewrite dot_cons. nra.
Qed.

Lemma Qsq_nonneg (z : Q) : 0 <= z * z.
Proof. nra. Qed.

Lemma cauchy_schwarz (a b : list Q) :
  dot a b * dot a b <= dot a a * dot b b.
Proof.
  revert b. induction a as [|x a IH]; intros b.
  - unfold dot. simpl. lra.
  - destruct b as [|y b].
    + rewrite (dot_nil_r (x :: a)), (dot_nil_r []). lra.
    + rewrite !dot_cons. specialize (IH b).
      pose proof (dot_self_nonneg a) as Ha.
      pose proof (dot_self_nonneg b) as Hb.
      set (A := dot a a) in *. set (B := dot b b) in *. set (C := dot a b) in *.
      assert (2 * (x * y) * C <= x * x * B + y * y * A) as Hk.
      { destruct (Qlt_le_dec (x * x * B + y * y * A) (2 * (x * y) * C)) as [Hlt|Hle];
          [|exact Hle].
        exfalso.
        assert (0 <= x * x * B + y * y * A) as H0.
        { pose proof (Qmult_le_0_compat _ _ (Qsq_nonneg x) Hb).
          pose proof (Qmult_le_0_compat _ _ (Qsq_nonneg y) Ha). lra. }
        assert ((x * x * B + y * y * A) * (x * x * B + y * y * A)
                < (2 * (x * y) * C) * (2 * (x * y) * C)) as H1 by nra.
        pose proof (Qsq_nonneg (x * x * B - y * y * A)) as H2.
        assert (0 <= (x * y) * (x * y) * (A * B - C * C)) as H3.
        { apply Qmult_le_0_compat; [apply Qsq_nonneg | lra]. }
        nra. }
      nra.
Qed.

(** *** Variance and correlation *)

Lemma dot_zero_l (a b : list Q) : Forall (fun d => d == 0) a -> dot a b == 0.
Proof.
  intros Ha. revert b. induction Ha as [|x a Hx Ha IH]; intros b.
  - reflexivity.
  - destruct b as [|y b]; [now rewrite dot_nil_r|].
    rewrite dot_cons, IH, Hx. ring.
Qed.

Lemma Qsum_const (c : Q) (l : list Q) :
  Forall (fun x => x == c) l -> Qsum l == inject_Z (Z.of_nat (length l)) * c.
Proof.
  induction 1 as [|x l Hx Hl IH].
  - simpl. ring.
  - cbn [Qsum fold_right length]. fold (Qsum l). rewrite IH, Hx.
    rewrite Nat2Z.inj_succ. unfold Z.succ. rewrite inject_Z_plus. ring.
Qed.

Lemma mean_const (c : Q) (l : list Q) :
  l <> [] -> Forall (fun x => x == c) l -> mean l == c.
Proof.
  intros Hne Hc. unfold mean. rewrite (Qsum_const Hc).
  field. destruct l as [|x l]; [congruence|].
  simpl length. rewrite Nat2Z.inj_succ. unfold Z.succ.
  rewrite inject_Z_plus. 
  assert (0 <= inject_Z (Z.of_nat (length l))).
  { change 0 with (inject_Z 0). rewrite <- Zle_Qle. lia. }
  change (inject_Z 1) with 1. lra.
Qed.

Lemma deviations_constant (l : list Q) :
  constant l -> Forall (fun d => d == 0) (deviations l).
Proof.
  intros Hc. destruct l as [|c l]; [constructor|].
  assert (Forall (fun x => x == c) (c :: l)) as Hall.
  { apply Forall_forall. intros x Hx. apply Hc; [exact Hx | now left]. }
  pose proof (mean_const (l := c :: l) ltac:(discriminate) Hall) as Hm.
  unfold deviations. apply Forall_map. 
  eapply Forall_impl; [|exact Hall]. simpl. intros x Hx. rewrite Hx, Hm. ring.
Qed.

Lemma constant_fst_combine (x y : list Q) :
  constant x -> constant (map fst (combine x y)).
Proof.
  intros Hc a b Ha Hb. apply in_map_iff in Ha, Hb.
  destruct Ha as ([a1 a2] & <- & Ha). destruct Hb as ([b1 b2] & <- & Hb).
  apply in_combine_l in Ha, Hb. now apply Hc.
Qed.

(** A target without variance has no defined correlation with anything. *)
Lemma pearson_constant (x y : list Q) : constant x -> pearson x y = NaN.
Proof.
  intros Hc. unfold pearson.
  pose proof (deviations_constant (constant_fst_combine y Hc)) as Hd.
  assert (Qeq_bool (dot (deviations (map fst (combine x y)))
                        (deviations (map fst (combine x y)))
                    * dot (deviations (map snd (combine x y)))
                          (deviations (map snd (combine x y)))) 0 = true) as ->;
    [|reflexivity].
  apply Qeq_bool_iff. rewrite (dot_zero_l _ Hd). ring.
Qed.

(** Every defined score lies between -1 and 1. *)
Lemma pearson_range (x y : list Q) (q : Q) :
  pearson x y = Coef q -> -1 <= q /\ q <= 1.
Proof.
  unfold pearson.
  set (dx := deviations (map fst (combine x y))).
  set (dy := deviations (map snd (combine x y))).
  destruct (Qeq_bool (dot dx dx * dot dy dy) 0) eqn:Eb; [discriminate|].
  intros [= <-].
  assert (Qred (dot dx dy * Qabs (dot dx dy) / (dot dx dx * dot dy dy))
          == dot dx dy * Qabs (dot dx dy) / (dot dx dx * dot dy dy)) as ->
      by apply Qred_correct.
  assert (~ dot dx dx * dot dy dy == 0) as Hne.
  { intros E. apply Qeq_bool_iff in E. congruence. }
  pose proof (Qmult_le_0_compat _ _ (dot_self_nonneg dx) (dot_self_nonneg dy)) as Hd.
  assert (0 < dot dx dx * dot dy dy) as Hpos.
  { apply Qle_lteq in Hd. destruct Hd as [L|E]; [exact L|]. symmetry in E. contradiction. }
  pose proof (cauchy_schwarz dx dy) as Hcs.
  set (D := dot dx dx * dot dy dy) in *. set (c := dot dx dy) in *.
  assert (c * Qabs c <= D /\ - D <= c * Qabs c) as [Hu Hl].
  { destruct (Qlt_le_dec c 0) as [Hn|Hp].
    - rewrite (Qabs_neg c) by lra. split; nra.
    - rewrite (Qabs_pos c) by lra. split; nra. }
  split.
  - apply Qle_shift_div_l; [exact Hpos|]. lra.
  - apply Qle_shift_div_r; [exact Hpos|]. lra.
Qed.

(** *** Index sorting *)

Lemma insert_index_perm (l : list Q) (i : nat) (s : list nat) :
  Permutation (insert_index l i s) (i :: s).
Proof.
  induction s as [|j s IH]; simpl; [reflexivity|].
  destruct (Qle_bool (nth i l 0) (nth j l 0)); [reflexivity|].
  rewrite IH. apply perm_swap.
Qed.

Lemma insert_index_sorted (l : list Q) (i : nat) (s : list nat) :
  StronglySorted Qle (map (fun k => nth k l 0) s) ->
  StronglySorted Qle (map (fun k => nth k l 0) (insert_index l i s)).
Proof.
  induction s as [|j s IH]; simpl; intros Hs.
  - repeat constructor.
  - inversion Hs as [|? ? Hs' Hj]; subst.
    destruct (Qle_bool (nth i l 0) (nth j l 0)) eqn:E; simpl.
    + apply Qle_bool_iff in E. constructor; [exact Hs|].
      constructor; [exact E|].
      eapply Forall_impl; [|exact Hj]. intros a Ha. simpl in Ha.
      now apply Qle_trans with (nth j l 0).
    + assert (nth j l 0 <= nth i l 0) as Hle.
      { destruct (Qlt_le_dec (nth j l 0) (nth i l 0)) as [L|L];
          [now apply Qlt_le_weak|].
        apply Qle_bool_iff in L. congruence. }
      constructor; [now apply IH|].
      apply Forall_forall. intros a Ha. apply in_map_iff in Ha.
      destruct Ha as (k & <- & Hk).
      apply (Permutation_in _ (insert_index_perm l i s)) in Hk.
      destruct Hk as [<-|Hk]; [exact Hle|].
      rewrite Forall_forall in Hj. apply Hj.
      apply in_map_iff. exists k. split; [reflexivity | exact Hk].
Qed.

Lemma insertion_argsort_contract : argsort_contract insertion_argsort.
Proof.
  intros l. unfold insertion_argsort.
  generalize (seq 0 (length l)) as idx. intros idx. split.
  - induction idx as [|i idx IH]; simpl; [reflexivity|].
    rewrite insert_index_perm. now constructor.
  - induction idx as [|i idx IH]; simpl; [constructor|].
    now apply insert_index_sorted.
Qed.

(** *** Fancy indexing *)

Lemma take_shift {A} (a : A) (l : list A) (idx : list nat) :
  take (a :: l) (map S idx) = take l idx.
Proof.
  unfold take. induction idx as [|i idx IH]; simpl; [reflexivity|].
  now rewrite IH.
Qed.

Lemma take_seq {A} (l : list A) : take l (seq 0 (length l)) = l.
Proof.
  induction l as [|a l IH]; [reflexivity|].
  simpl length. cbn [seq]. rewrite <- seq_shift.
  change (take (a :: l) (0%nat :: map S (seq 0 (length l))))
    with (a :: take (a :: l) (map S (seq 0 (length l)))).
  now rewrite take_shift, IH.
Qed.

Lemma take_perm {A} (l : list A) (idx : list nat) :
  Permutation idx (seq 0 (length l)) -> Permutation (take l idx) l.
Proof.
  intros Hp. rewrite <- (take_seq l) at 2.
  unfold take. now apply Permutation_flat_map.
Qed.

Lemma take_In {A} (l : list A) (idx : list nat) (x : A) :
  In x (take l idx) -> In x l.
Proof.
  unfold take. rewrite in_flat_map. intros (i & _ & Hx).
  destruct (nth_error l i) as [y|] eqn:E; [|destruct Hx].
  destruct Hx as [<-|[]]. eapply nth_error_In, E.
Qed.

Lemma map_take {A} (f : A -> Q) (l : list A) (idx : list nat) :
  Forall (fun i => i < length l)%nat idx ->
  map f (take l idx) = map (fun i => nth i (map f l) 0) idx.
Proof.
  induction 1 as [|i idx Hi Hidx IH]; [reflexivity|].
  unfold take in *. simpl.
  destruct (nth_error l i) as [x|] eqn:E.
  - simpl. rewrite IH. f_equal.
    symmetry. apply nth_error_nth. now rewrite nth_error_map, E.
  - apply nth_error_None in E. lia.
Qed.

Lemma filter_partition {A} (f : A -> bool) (l : list A) :
  Permutation (filter (fun x => negb (f x)) l ++ filter f l) l.
Proof.
  induction l as [|a l IH]; simpl; [reflexivity|].
  destruct (f a); simpl.
  - rewrite <- Permutation_middle. now constructor.
  - now constructor.
Qed.

Lemma StronglySorted_app {A} (R : A -> A -> Prop) (l1 l2 : list A) :
  StronglySorted R l1 -> StronglySorted R l2 ->
  (forall a b, In a l1 -> In b l2 -> R a b) ->
  StronglySorted R (l1 ++ l2).
Proof.
  induction 1 as [|a l1 Hl IH Ha]; simpl; intros H2 Hc; [exact H2|].
  constructor.
  - apply IH; [exact H2|]. intros x y Hx Hy. apply Hc; [now right | exact Hy].
  - apply Forall_app. split; [exact Ha|].
    apply Forall_forall. intros y Hy. apply Hc; [now left | exact Hy].
Qed.

Lemma StronglySorted_weaken {A} (R R' : A -> A -> Prop) (l : list A) :
  (forall a b, R a b -> R' a b) -> StronglySorted R l -> StronglySorted R' l.
Proof.
  intros Himp. induction 1 as [|a l Hl IH Ha]; constructor; [exact IH|].
  eapply Forall_impl; [|exact Ha]. intros b. apply Himp.
Qed.

Lemma StronglySorted_rev {A} (R : A -> A -> Prop) (l : list A) :
  StronglySorted R l -> StronglySorted (fun a b => R b a) (rev l).
Proof.
  induction 1 as [|a l Hl IH Ha]; simpl; [constructor|].
  apply StronglySorted_app; [exact IH | repeat constructor |].
  intros x y Hx [<-|[]]. apply in_rev in Hx.
  rewrite Forall_forall in Ha. now apply Ha.
Qed.

Lemma StronglySorted_map_inv {A B} (R : B -> B -> Prop) (f : A -> B) (l : list A) :
  StronglySorted R (map f l) -> StronglySorted (fun a b => R (f a) (f b)) l.
Proof.
  induction l as [|a l IH]; simpl; intros Hs; [constructor|].
  inversion Hs as [|? ? Hs' Ha]; subst. constructor; [now apply IH|].
  now rewrite Forall_map in Ha.
Qed.


(** *** The descending order of [nargsort] *)

Lemma nth_seq_self (l : list Q) :
  map (fun i => nth i l 0) (seq 0 (length l)) = l.
Proof.
  apply nth_error_ext. intros k. rewrite nth_error_map, nth_error_seq.
  destruct (Nat.ltb_spec k (length l)) as [L|L]; simpl.
  - symmetry. now apply nth_error_nth'.
  - symmetry. now apply nth_error_None.
Qed.

Section Nargsort.
Variable argsort : list Q -> list nat.
Hypothesis contract : argsort_contract argsort.

Lemma nargsort_descending_perm (items : list Q) :
  Permutation (nargsort_descending argsort items) (seq 0 (length items)).
Proof using contract.
  unfold nargsort_descending. rewrite <- Permutation_rev.
  rewrite (Permutation_rev (seq 0 (length items))) at 2.
  apply take_perm. rewrite length_rev, length_seq.
  rewrite <- (length_rev items). apply contract.
Qed.

Lemma nargsort_descending_sorted (items : list Q) :
  StronglySorted (fun a b => b <= a)
    (map (fun i => nth i items 0) (nargsort_descending argsort items)).
Proof using contract.
  unfold nargsort_descending. rewrite map_rev.
  apply (StronglySorted_rev (R := Qle)).
  assert (Forall (fun i => i < length (rev (seq 0 (length items))))%nat
                 (argsort (rev items))) as Hidx.
  { apply Forall_forall. intros i Hi.
    apply (Permutation_in _ (proj1 (contract (rev items)))) in Hi.
    apply in_seq in Hi. rewrite length_rev in Hi.
    rewrite length_rev, length_seq. lia. }
  rewrite (map_take (fun i => nth i items 0) _ Hidx).
  rewrite map_rev, nth_seq_self. apply contract.
Qed.

End Nargsort.

(** *** Sorting a series *)

Section SortValuesBy.
Variable argsort : list Q -> list nat.
Hypothesis contract : argsort_contract argsort.
Context {A : Type}.
Variable isna : A -> bool.
Variable key : A -> Q.

Lemma sort_values_by_split (s : list A) :
  exists defined,
    sort_values_by argsort isna key s = defined ++ filter isna s /\
    Forall (fun e => In e s /\ isna e = false) defined.
Proof using Type.
  eexists. split; [reflexivity|].
  apply Forall_forall. intros e He. apply take_In in He.
  apply filter_In in He. destruct He as [Hin Hn]. split; [exact Hin|].
  now destruct (isna e).
Qed.

Lemma sort_values_by_perm (s : list A) :
  Permutation (sort_values_by argsort isna key s) s.
Proof using contract.
  unfold sort_values_by.
  rewrite <- (filter_partition isna s) at 4.
  apply Permutation_app_tail, take_perm.
  pose proof (nargsort_descending_perm contract
                (map key (filter (fun e => negb (isna e)) s))) as Hp.
  now rewrite length_map in Hp.
Qed.

Lemma sort_values_by_sorted (s : list A) :
  StronglySorted (may_precede isna key) (sort_values_by argsort isna key s).
Proof using contract.
  unfold sort_values_by.
  set (good := filter (fun e => negb (isna e)) s).
  set (keys := map key good).
  apply StronglySorted_app.
  - assert (Forall (fun i => i < length good)%nat
                   (nargsort_descending argsort keys)) as Hidx.
    { apply Forall_forall. intros i Hi.
      apply (Permutation_in _ (nargsort_descending_perm contract keys)) in Hi.
      apply in_seq in Hi. unfold keys in Hi. rewrite length_map in Hi. lia. }
    pose proof (map_take key good Hidx) as Hm.
    fold keys in Hm.
    pose proof (nargsort_descending_sorted contract keys) as Hs.
    rewrite <- Hm in Hs. apply StronglySorted_map_inv in Hs.
    assert (Forall (fun e => isna e = false)
                   (take good (nargsort_descending argsort keys))) as Hg.
    { apply Forall_forall. intros e He. apply take_In in He.
      apply filter_In in He. now destruct (isna e); destruct He. }
    revert Hs Hg. generalize (take good (nargsort_descending argsort keys)) as d.
    induction 1 as [|a d Hd IH Ha]; intros Hg; [constructor|].
    inversion Hg as [|? ? Hna Hg']; subst. constructor; [now apply IH|].
    rewrite Forall_forall in *. intros b Hb.
    specialize (Ha b Hb). specialize (Hg' b Hb).
    unfold may_precede. rewrite Hna, Hg'. exact Ha.
  - induction s as [|e s IH]; simpl; [constructor|].
    destruct (isna e) eqn:E; [|exact IH].
    constructor; [exact IH|]. apply Forall_forall. intros b Hb.
    apply filter_In in Hb. destruct Hb as [_ Hb].
    unfold may_precede. rewrite Hb. now destruct (isna e).
  - intros a b _ Hb. apply filter_In in Hb. destruct Hb as [_ Hb].
    unfold may_precede. rewrite Hb. now destruct (isna a).
Qed.

End SortValuesBy.

Section SortValues.
Variable argsort : list Q -> list nat.
Hypothesis contract : argsort_contract argsort.
Context {C : Type}.


Lemma sort_values_perm (s : list (C * score)) :
  Permutation (sort_values argsort s) s.
Proof using contract. now apply sort_values_by_perm. Qed.

Lemma sort_values_sorted (s : list (C * score)) :
  StronglySorted (fun a b => score_ge (snd a) (snd b)) (sort_values argsort s).
Proof using contract.
  eapply StronglySorted_weaken; [|now apply sort_values_by_sorted].
  intros a b. unfold may_precede.
  destruct (snd a), (snd b); simpl; auto.
Qed.

Lemma sort_values64_split (s : list (C * float64)) :
  exists defined,
    sort_values64 argsort s = defined ++ filter (fun e => isna (snd e)) s /\
    Forall (fun e => In e s /\ isna (snd e) = false) defined.
Proof using Type. apply sort_values_by_split. Qed.

Lemma sort_values64_perm (s : list (C * float64)) :
  Permutation (sort_values64 argsort s) s.
Proof using contract. now apply sort_values_by_perm. Qed.

Lemma sort_values64_sorted (s : list (C * float64)) :
  StronglySorted (fun a b => score_ge64 (snd a) (snd b)) (sort_values64 argsort s).
Proof using contract.
  eapply StronglySorted_weaken; [|now apply sort_values_by_sorted].
  intros a b H. exact H.
Qed.

End SortValues.

(** *** Columns and their scores *)

Lemma get_loc_nth {K} `{Ordered K} (k : K) (l : list K) (j : nat) :
  get_loc k l = Some j -> nth_error l j = Some k.
Proof.
  revert j. induction l as [|h t IH]; simpl; intros j; [discriminate|].
  destruct (key_eqb k h) eqn:E.
  - intros [= <-]. apply key_eqb_eq in E. now subst.
  - destruct (get_loc k t) as [i|]; simpl; [|discriminate].
    intros [= <-]. now apply IH.
Qed.

Lemma nth_error_combine {A B} (l1 : list A) (l2 : list B) (j : nat) (a : A) (b : B) :
  nth_error l1 j = Some a -> nth_error l2 j = Some b ->
  nth_error (combine l1 l2) j = Some (a, b).
Proof.
  revert l2 j. induction l1 as [|x l1 IH]; intros [|y l2] [|j]; simpl;
    try discriminate.
  - now intros [= ->] [= ->].
  - apply IH.
Qed.

Lemma corrwith_In {R C} (df : DataFrame R C Q) (target : list Q) (e : C * score) :
  In e (corrwith df target) ->
  In (fst e) (columns df) /\ exists col, In col (data df) /\ snd e = pearson target col.
Proof.
  unfold corrwith. destruct e as [c s]. intros Hin. split.
  - now apply in_combine_l in Hin.
  - apply in_combine_r in Hin. apply in_map_iff in Hin.
    destruct Hin as (col & <- & Hc). now exists col.
Qed.


(** *** Columns and their float64 scores *)

Lemma corrwith64_target {R C} `{Ordered C}
  (df : DataFrame R C float64) (movie : C) (target : list float64) :
  getitem df movie = Some target ->
  In (movie, nancorr target target) (corrwith64 df target).
Proof.
  unfold getitem, corrwith64. intros Hget.
  destruct (get_loc movie (columns df)) as [j|] eqn:Ej; [|discriminate].
  apply get_loc_nth in Ej.
  apply nth_error_In with (n := j). apply nth_error_combine; [exact Ej|].
  now rewrite nth_error_map, Hget.
Qed.

Lemma corrwith64_In {R C} (df : DataFrame R C float64) (target : list float64)
  (e : C * float64) :
  In e (corrwith64 df target) ->
  In (fst e) (columns df) /\
  exists col, In col (data df) /\ snd e = nancorr target col.
Proof.
  unfold corrwith64. destruct e as [c s]. intros Hin. split.
  - now apply in_combine_l in Hin.
  - apply in_combine_r in Hin. apply in_map_iff in Hin.
    destruct Hin as (col & <- & Hcol). now exists col.
Qed.

Lemma getitem_In {R C A} `{Ordered C} (df : DataFrame R C A) (c : C)
  (col : list A) :
  getitem df c = Some col -> In c (columns df) /\ In col (data df).
Proof.
  unfold getitem. intros Hget.
  destruct (get_loc c (columns df)) as [j|] eqn:Ej; [|discriminate].
  split.
  - apply get_loc_nth in Ej. now apply nth_error_In in Ej.
  - now apply nth_error_In in Hget.
Qed.

(** *** The range of a float64 score *)

Lemma clip64_range (x : float64) : in_unit_range (clip64 x).
Proof.
  unfold in_unit_range, clip64.
  destruct (SFltb x (SFopp one64)) eqn:E1; [split; reflexivity|].
  destruct (SFltb one64 x) eqn:E2; [split; reflexivity|].
  now split.
Qed.

Lemma nancorr_range (a b : list float64) : in_unit_range (nancorr a b).
Proof.
  unfold nancorr.
  destruct (filter _ (combine a b)); [split; reflexivity|].
  apply clip64_range.
Qed.

(** *** The sign of a score against itself *)














(** *** A target without deviations *)

Lemma add64_zero_or_nan (x y : float64) :
  zero_or_nan x -> zero_or_nan y -> zero_or_nan (add64 x y).
Proof.
  destruct x as [sx|sx| |sx mx ex], y as [sy|sy| |sy my ey];
    simpl; try contradiction; trivial.
  now destruct sx, sy.
Qed.

Lemma mul64_zero_or_nan (x y : float64) :
  zero_or_nan x -> zero_or_nan (mul64 x y).
Proof.
  destruct x as [sx|sx| |sx mx ex], y as [sy|sy| |sy my ey];
    simpl; try contradiction; trivial.
Qed.

Lemma sqrt64_zero_or_nan (x : float64) :
  zero_or_nan x -> zero_or_nan (sqrt64 x).
Proof. destruct x as [sx|sx| |sx mx ex]; simpl; try contradiction; trivial. Qed.

Lemma div64_zero_or_nan (x y : float64) :
  zero_or_nan x -> zero_or_nan y -> div64 x y = S754_nan.
Proof.
  destruct x as [sx|sx| |sx mx ex], y as [sy|sy| |sy my ey];
    simpl; try contradiction; trivial.
Qed.

Lemma div64_nan_l (y : float64) : div64 S754_nan y = S754_nan.
Proof. now destruct y. Qed.

Lemma dot64_zero_or_nan (a b : list float64) :
  Forall zero_or_nan a -> zero_or_nan (dot64 a b).
Proof.
  unfold dot64. intros Ha.
  assert (zero_or_nan zero64) as Hz by exact I.
  revert Hz. generalize zero64 as acc. revert b.
  induction Ha as [|x a Hx Ha IH]; intros b acc Hacc; [exact Hacc|].
  destruct b as [|y b]; [exact Hacc|]. simpl.
  apply IH. apply add64_zero_or_nan; [exact Hacc|].
  now apply mul64_zero_or_nan.
Qed.

(** Without a deviation on the side of [x] the quotient is 0/0. *)
Lemma corrcoef_zero_or_nan (x y : list float64) :
  Forall zero_or_nan (deviations64 x) -> corrcoef x y = S754_nan.
Proof.
  intros Hx. unfold corrcoef.
  set (scale := div64 one64 _).
  pose proof (@mul64_zero_or_nan _ scale
                (@dot64_zero_or_nan _ (deviations64 x) Hx)) as H00.
  pose proof (@mul64_zero_or_nan _ scale
                (@dot64_zero_or_nan _ (deviations64 y) Hx)) as H01.
  rewrite (@div64_zero_or_nan _ _ H01 (@sqrt64_zero_or_nan _ H00)).
  now rewrite div64_nan_l.
Qed.

Lemma corrcoef_zero_deviations (x y : list float64) :
  Forall (fun d => is_zero64 d = true) (deviations64 x) ->
  corrcoef x y = S754_nan.
Proof.
  intros Hx. apply corrcoef_zero_or_nan.
  eapply Forall_impl; [|exact Hx]. intros d Hd. now destruct d.
Qed.

(** *** Sums of zeros *)

Lemma fold_add64_zero_or_nan (a : list float64) (acc : float64) :
  Forall zero_or_nan a -> zero_or_nan acc ->
  zero_or_nan (fold_left add64 a acc).
Proof.
  intros Ha. revert acc. induction Ha as [|x a Hx Ha IH]; intros acc Hacc;
    [exact Hacc|].
  simpl. apply IH. now apply add64_zero_or_nan.
Qed.

Lemma unrolled_sum_zero_or_nan (n : nat) :
  forall (a : list float64) (r0 r1 r2 r3 r4 r5 r6 r7 : float64),
    (length a <= n)%nat -> Forall zero_or_nan a ->
    zero_or_nan r0 -> zero_or_nan r1 -> zero_or_nan r2 -> zero_or_nan r3 ->
    zero_or_nan r4 -> zero_or_nan r5 -> zero_or_nan r6 -> zero_or_nan r7 ->
    zero_or_nan (unrolled_sum (r0, r1, r2, r3, r4, r5, r6, r7) a).
Proof.
  induction n as [|n IH]; intros a r0 r1 r2 r3 r4 r5 r6 r7 Hlen Ha
                                 H0 H1 H2 H3 H4 H5 H6 H7.
  - destruct a; [|simpl in Hlen; lia]. simpl.
    repeat apply add64_zero_or_nan; assumption.
  - assert (zero_or_nan
              (add64 (add64 (add64 r0 r1) (add64 r2 r3))
                     (add64 (add64 r4 r5) (add64 r6 r7)))) as Htree
        by (repeat apply add64_zero_or_nan; assumption).
    destruct a as [|a0 [|a1 [|a2 [|a3 [|a4 [|a5 [|a6 [|a7 rest]]]]]]]];
      try (cbn [unrolled_sum]; now apply fold_add64_zero_or_nan).
    cbn [unrolled_sum].
    repeat match goal with
           | H : Forall _ (_ :: _) |- _ =>
               let Hx := fresh "Hx" in
               apply Forall_cons_iff in H; destruct H as [Hx H]
           end.
    apply IH; try (now apply add64_zero_or_nan); [|assumption].
    simpl in Hlen. lia.
Qed.

Lemma block_sum_zero_or_nan (a : list float64) :
  Forall zero_or_nan a -> zero_or_nan (block_sum a).
Proof.
  intros Ha.
  destruct a as [|a0 [|a1 [|a2 [|a3 [|a4 [|a5 [|a6 [|a7 rest]]]]]]]];
    try (cbn [block_sum]; now apply fold_add64_zero_or_nan).
  cbn [block_sum].
  repeat match goal with
         | H : Forall _ (_ :: _) |- _ =>
             let Hx := fresh "Hx" in
             apply Forall_cons_iff in H; destruct H as [Hx H]
         end.
  now apply (unrolled_sum_zero_or_nan (n := length rest)).
Qed.

Lemma Forall_firstn {A} (P : A -> Prop) (n : nat) (l : list A) :
  Forall P l -> Forall P (firstn n l).
Proof.
  intros H. apply Forall_forall. intros x Hx.
  rewrite Forall_forall in H. apply H. eapply In_nth_error in Hx.
  destruct Hx as (i & Hi). rewrite <- (firstn_skipn n l).
  apply in_or_app. left. eapply nth_error_In. exact Hi.
Qed.

Lemma Forall_skipn {A} (P : A -> Prop) (n : nat) (l : list A) :
  Forall P l -> Forall P (skipn n l).
Proof.
  intros H. apply Forall_forall. intros x Hx.
  rewrite Forall_forall in H. apply H. rewrite <- (firstn_skipn n l).
  apply in_or_app. now right.
Qed.

Lemma pairwise_sum_zero_or_nan (fuel : nat) (a : list float64) :
  Forall zero_or_nan a -> zero_or_nan (pairwise_sum fuel a).
Proof.
  revert a. induction fuel as [|fuel IH]; intros a Ha.
  - now apply block_sum_zero_or_nan.
  - cbn [pairwise_sum]. destruct (128 <? length a)%nat.
    + apply add64_zero_or_nan; apply IH;
        [now apply Forall_firstn | now apply Forall_skipn].
    + now apply block_sum_zero_or_nan.
Qed.

Lemma div64_zero_or_nan_l (x y : float64) :
  zero_or_nan x -> zero_or_nan (div64 x y).
Proof.
  destruct x as [sx|sx| |sx mx ex], y as [sy|sy| |sy my ey];
    simpl; try contradiction; trivial.
Qed.

Lemma sub64_zero_or_nan (x y : float64) :
  zero_or_nan x -> zero_or_nan y -> zero_or_nan (sub64 x y).
Proof.
  destruct x as [sx|sx| |sx mx ex], y as [sy|sy| |sy my ey];
    simpl; try contradiction; trivial.
  now destruct sx, sy.
Qed.

(** A column of zeros has no deviations. *)
Lemma zero_column_deviations (a : list float64) :
  Forall (fun x => is_zero64 x = true) a ->
  Forall zero_or_nan (deviations64 a).
Proof.
  intros Ha.
  assert (Forall zero_or_nan a) as Ha'.
  { eapply Forall_impl; [|exact Ha]. intros x Hx. now destruct x. }
  assert (zero_or_nan (mean64 a)) as Hm.
  { unfold mean64, sum64. apply div64_zero_or_nan_l.
    apply add64_zero_or_nan; [exact I|].
    now apply pairwise_sum_zero_or_nan. }
  unfold deviations64. apply Forall_map.
  eapply Forall_impl; [|exact Ha']. intros x Hx.
  now apply sub64_zero_or_nan.
Qed.

(** *** The fuel of the pairwise sum *)

Lemma pairwise_sum_fuel (n : nat) :
  forall (a : list float64) (fuel fuel' : nat),
    (length a <= n)%nat -> (length a <= fuel)%nat -> (length a <= fuel')%nat ->
    pairwise_sum fuel a = pairwise_sum fuel' a.
Proof.
  induction n as [|n IH]; intros a fuel fuel' Hn Hf Hf'.
  - destruct a; [|simpl in Hn; lia]. now destruct fuel, fuel'.
  - destruct (128 <? length a)%nat eqn:E.
    + apply Nat.ltb_lt in E.
      destruct fuel as [|fuel]; [lia|]. destruct fuel' as [|fuel']; [lia|].
      cbn [pairwise_sum]. rewrite (proj2 (Nat.ltb_lt _ _) E).
      set (n2 := (length a / 2 - (length a / 2) mod 8)%nat).
      assert (0 < n2 < length a)%nat as Hn2.
      { unfold n2.
        pose proof (Nat.mod_upper_bound (length a / 2) 8 ltac:(lia)).
        pose proof (Nat.div_lt (length a) 2 ltac:(lia) ltac:(lia)).
        assert (64 <= length a / 2)%nat
          by (apply Nat.div_le_lower_bound; lia).
        lia. }
      f_equal; apply IH; rewrite ?length_firstn, ?length_skipn; lia.
    + destruct fuel, fuel'; cbn [pairwise_sum]; rewrite ?E; reflexivity.
Qed.

(** *** A single row *)

Lemma mul64_infinity (x : float64) :
  infinity_or_nan (mul64 x (S754_infinity false)).
Proof. destruct x as [sx|sx| |sx mx ex]; simpl; trivial. Qed.

Lemma sqrt64_infinity_or_nan (x : float64) :
  infinity_or_nan x -> infinity_or_nan (sqrt64 x).
Proof.
  destruct x as [sx|sx| |sx mx ex]; simpl; try contradiction; trivial.
  now destruct sx.
Qed.

Lemma div64_infinity_or_nan (x y : float64) :
  infinity_or_nan x -> infinity_or_nan y -> div64 x y = S754_nan.
Proof.
  destruct x as [sx|sx| |sx mx ex], y as [sy|sy| |sy my ey];
    simpl; try contradiction; trivial.
Qed.

(** With a single row the factor of the covariance is [1 / 0.0]. *)
Lemma corrcoef_single_row (x y : list float64) :
  (length x <= 1)%nat -> corrcoef x y = S754_nan.
Proof.
  intros Hlen. unfold corrcoef.
  rewrite (proj2 (Nat.leb_le _ _) Hlen).
  change (div64 one64 zero64) with (S754_infinity false).
  rewrite (@div64_infinity_or_nan _ _
             (mul64_infinity (dot64 (deviations64 x) (deviations64 y)))
             (@sqrt64_infinity_or_nan _
                (mul64_infinity (dot64 (deviations64 x) (deviations64 x))))).
  now rewrite div64_nan_l.
Qed.

Lemma nancorr_single_row (a b : list float64) :
  (length a <= 1)%nat -> nancorr a b = S754_nan.
Proof.
  intros Hlen. unfold nancorr.
  set (valid := filter _ (combine a b)).
  assert (length valid <= 1)%nat as Hv.
  { unfold valid.
    pose proof (filter_length_le
                  (fun p : float64 * float64 =>
                     negb (isna (fst p)) && negb (isna (snd p)))
                  (combine a b)).
    pose proof (length_combine a b). lia. }
  destruct valid as [|p valid]; [reflexivity|].
  apply corrcoef_single_row. now rewrite length_map.
Qed.

Lemma combine_fst {A B} (x : list A) (y : list B) :
  length x = length y -> map fst (combine x y) = x.
Proof.
  revert y. induction x as [|a x IH]; intros [|b y]; simpl; try discriminate;
    [reflexivity|]. intros [= E]. now rewrite IH.
Qed.

Lemma combine_snd {A B} (x : list A) (y : list B) :
  length x = length y -> map snd (combine x y) = y.
Proof.
  revert y. induction x as [|a x IH]; intros [|b y]; simpl; try discriminate;
    [reflexivity|]. intros [= E]. now rewrite IH.
Qed.

Lemma filter_all {A} (f : A -> bool) (l : list A) :
  Forall (fun x => f x = true) l -> filter f l = l.
Proof.
  induction 1 as [|x l Hx Hl IH]; simpl; [reflexivity|].
  now rewrite Hx, IH.
Qed.

(** On two columns of a dense frame no row is left out. *)
Lemma nancorr_dense (a b : list float64) :
  length a = length b ->
  Forall (fun x => isna x = false) a ->
  Forall (fun x => isna x = false) b ->
  nancorr a b = match a with [] => S754_nan | _ :: _ => corrcoef a b end.
Proof.
  intros Hlen Ha Hb. unfold nancorr.
  rewrite filter_all.
  - pose proof (combine_fst a b Hlen) as Ef.
    pose proof (combine_snd a b Hlen) as Es.
    destruct a as [|x a], b as [|y b]; try discriminate; [reflexivity|].
    cbn [combine] in *. now rewrite Ef, Es.
  - apply Forall_forall. intros [x y] Hin.
    rewrite Forall_forall in Ha, Hb. simpl.
    rewrite (Ha x (in_combine_l _ _ _ _ Hin)).
    now rewrite (Hb y (in_combine_r _ _ _ _ Hin)).
Qed.

Lemma sort_values64_all_nan {C} (argsort : list Q -> list nat)
  (s : list (C * float64)) :
  Forall (fun e => isna (snd e) = true) s -> sort_values64 argsort s = s.
Proof.
  intros Hall. unfold sort_values64, sort_values_by.
  assert (filter (fun e : C * float64 => negb (isna (snd e))) s = []) as ->.
  { induction Hall as [|e l He Hl IH]; simpl; [reflexivity|]. now rewrite He. }
  rewrite (filter_all _ Hall).
  assert (forall idx, take (@nil (C * float64)) idx = []) as ->; [|reflexivity].
  induction idx as [|i idx IH]; [reflexivity|].
  unfold take in *. simpl. now destruct i.
Qed.

(** *** Rankings in float64 *)

Lemma ranking64_In {R C} `{Ordered C} (argsort : list Q -> list nat)
  (df : DataFrame R C float64) (movie : C) (out : list (C * float64))
  (e : C * float64) :
  similarity_ranker64 argsort df movie = Ok out -> In e out ->
  exists target, getitem df movie = Some target /\ In e (corrwith64 df target).
Proof.
  unfold similarity_ranker64.
  destruct (getitem df movie) as [target|]; [|discriminate].
  intros [= <-] Hin. exists target. split; [reflexivity|].
  unfold sort_values64, sort_values_by in Hin. apply in_app_or in Hin.
  destruct Hin as [Hin|Hin].
  - apply take_In in Hin. now apply filter_In in Hin.
  - now apply filter_In in Hin.
Qed.

(** When every score against the target is NaN the ranking is the list of
    the columns, each with NaN. *)
Lemma ranker64_all_nan {R C} `{Ordered C} (argsort : list Q -> list nat)
  (df : DataFrame R C float64) (movie : C) (target : list float64) :
  length (data df) = length (columns df) ->
  getitem df movie = Some target ->
  (forall col, In col (data df) -> nancorr target col = S754_nan) ->
  exists out,
    similarity_ranker64 argsort df movie = Ok out /\
    Forall (fun e => snd e = S754_nan) out /\
    In (movie, S754_nan) out /\
    map fst out = columns df.
Proof.
  intros Hlen Hget Hnan. unfold similarity_ranker64. rewrite Hget.
  destruct (getitem_In df movie Hget) as [_ Htarget].
  assert (Forall (fun e : C * float64 => snd e = S754_nan) (corrwith64 df target))
    as Hall.
  { apply Forall_forall. intros e He. apply corrwith64_In in He.
    destruct He as (_ & col & Hcol & ->). now apply Hnan. }
  exists (corrwith64 df target). split; [|split; [exact Hall|split]].
  - f_equal. apply sort_values64_all_nan.
    eapply Forall_impl; [|exact Hall]. intros e ->. reflexivity.
  - rewrite <- (Hnan target Htarget). now apply corrwith64_target.
  - unfold corrwith64. apply combine_fst. now rewrite length_map.
Qed.

(** In a rectangular frame without missing cells the score of a column is
    [corrcoef] on the two whole columns. *)
Lemma nancorr_in_frame {R C} (df : DataFrame R C float64)
  (target col : list float64) :
  rectangular df -> dense df ->
  In target (data df) -> In col (data df) ->
  nancorr target col
  = match target with [] => S754_nan | _ :: _ => corrcoef target col end.
Proof.
  intros [_ Hrect] Hdense Htarget Hcol. unfold dense in Hdense.
  rewrite Forall_forall in Hrect, Hdense.
  apply nancorr_dense.
  - now rewrite (Hrect _ Htarget), (Hrect _ Hcol).
  - now apply Hdense.
  - now apply Hdense.
Qed.

(** *** The join *)

Lemma merge_In (ratings : list rating_row) (movies : list movie_row)
  (row : merged_row) :
  In row (merge ratings movies) <->
  exists r m, In r ratings /\ In m movies /\ r_movieId r = m_movieId m /\
              row = {| userId := r_userId r; movieId := r_movieId r;
                       rating := r_rating r; timestamp := r_timestamp r;
                       title := m_title m; genres := m_genres m |}.
Proof.
  unfold merge. rewrite in_flat_map. split.
  - intros (k & _ & Hrow). apply in_flat_map in Hrow.
    destruct Hrow as (r & Hr & Hrow). apply filter_In in Hr.
    destruct Hr as [Hr Ek]. apply Z.eqb_eq in Ek.
    apply in_map_iff in Hrow. destruct Hrow as (m & <- & Hm).
    apply filter_In in Hm. destruct Hm as [Hm E]. apply Z.eqb_eq in E.
    exists r, m. repeat split; try assumption. congruence.
  - intros (r & m & Hr & Hm & E & ->). exists (r_movieId r). split.
    + apply (proj2 (unique_In _ _)). now apply in_map.
    + apply in_flat_map. exists r. split.
      * apply filter_In. split; [exact Hr | apply Z.eqb_refl].
      * apply in_map_iff. exists m. split; [reflexivity|].
        apply filter_In. split; [exact Hm | now apply Z.eqb_eq].
Qed.

(** *** The feature table *)

Lemma loc_transpose_tabulate {R C A} `{Ordered R} `{Ordered C}
  (idx : list R) (cols : list C) (f : R -> C -> A) (r : R) (c : C) :
  In r idx -> In c cols ->
  loc (transpose {| index := idx; columns := cols;
                    data := map (fun c => map (fun r => f r c) idx) cols |}) c r
  = Some (f r c).
Proof.
  intros Hr Hc. unfold loc, transpose. simpl.
  destruct (get_loc_Some r idx Hr) as (i & -> & Hi).
  destruct (get_loc_Some c cols Hc) as (j & -> & Hj).
  assert (i < length idx)%nat as Li by (apply nth_error_Some; congruence).
  rewrite nth_error_map.
  assert (nth_error (seq 0 (length idx)) i = Some i) as ->.
  { rewrite nth_error_seq. destruct (Nat.ltb_spec i (length idx)); [reflexivity | lia]. }
  simpl.
  assert (flat_map (fun col => match nth_error col i with
                               | Some x => [x] | None => [] end)
                   (map (fun c => map (fun r => f r c) idx) cols)
          = map (fun c => f r c) cols) as ->.
  { clear Hc Hj. induction cols as [|c' cols IH]; simpl; [reflexivity|].
    rewrite nth_error_map, Hi. simpl. now f_equal. }
  now rewrite nth_error_map, Hj.
Qed.

Lemma group_sum_combine {A} (f : A -> string) (v : A -> Z) (t : string) (l : list A) :
  Zsum (map snd (filter (fun p => key_eqb (fst p) t)
                        (combine (map f l) (map v l))))
  = Zsum (map (fun e => if key_eqb (f e) t then v e else 0%Z) l).
Proof.
  induction l as [|e l IH]; simpl; [reflexivity|].
  destruct (key_eqb (f e) t); simpl; now rewrite IH.
Qed.

(** Every cell of the feature table is the number of times the title
    carries the label. *)
Lemma feature_cell (movies : list movie_row) (g t : string) :
  In g (index (movie_features movies)) ->
  In t (columns (movie_features movies)) ->
  loc (movie_features movies) g t = Some (label_count movies t g).
Proof.
  intros Hg Ht. unfold movie_features in *.
  assert (sum_level0 (get_dummies (explode movies))
          = {| index := unique (map fst (explode movies));
               columns := sort_unique (present_labels (explode movies));
               data :=
                 map (fun c =>
                        map (fun t => label_count movies t c)
                            (unique (map fst (explode movies))))
                     (sort_unique (present_labels (explode movies))) |}) as E.
  { unfold sum_level0, get_dummies. simpl. f_equal.
    rewrite map_map. apply map_ext. intros c. apply map_ext. intros t'.
    apply (group_sum_combine fst (fun e => indicator c (snd e))). }
  rewrite E in *. simpl in Hg, Ht.
  exact (loc_transpose_tabulate _ _ (fun t c => label_count movies t c) t g Ht Hg).
Qed.

(** *** Scores as real numbers *)

Lemma coef_R_nonneg (q : Q) : 0 <= q -> coef_R q = sqrt (Q2R q).
Proof.
  intros Hq. unfold coef_R.
  now rewrite (proj2 (Qle_bool_iff 0 q) Hq).
Qed.

Lemma coef_R_neg (q : Q) : q < 0 -> coef_R q = (- sqrt (- Q2R q))%R.
Proof.
  intros Hq. unfold coef_R.
  destruct (Qle_bool 0 q) eqn:E; [|reflexivity].
  apply Qle_bool_iff in E. lra.
Qed.

(** The real number grows strictly with its rational key. *)
Lemma coef_R_lt (p q : Q) : p < q -> (coef_R p < coef_R q)%R.
Proof.
  intros Hpq. pose proof (Qlt_Rlt _ _ Hpq) as HR.
  destruct (Qlt_le_dec p 0) as [Hp|Hp]; destruct (Qlt_le_dec q 0) as [Hq|Hq].
  - rewrite (coef_R_neg Hp), (coef_R_neg Hq).
    apply Ropp_lt_contravar, sqrt_lt_1_alt.
    pose proof (Qlt_Rlt _ _ Hq) as Hq'. rewrite RMicromega.Q2R_0 in Hq'.
    split; Lra.lra.
  - rewrite (coef_R_neg Hp), (coef_R_nonneg Hq).
    pose proof (Qlt_Rlt _ _ Hp) as Hp'. rewrite RMicromega.Q2R_0 in Hp'.
    assert (0 < sqrt (- Q2R p))%R by (apply sqrt_lt_R0; Lra.lra).
    pose proof (sqrt_pos (Q2R q)). Lra.lra.
  - lra.
  - rewrite (coef_R_nonneg Hp), (coef_R_nonneg Hq).
    apply sqrt_lt_1_alt. split; [|exact HR].
    pose proof (Qle_Rle _ _ Hp) as Hp'. now rewrite RMicromega.Q2R_0 in Hp'.
Qed.

Lemma coef_R_eq (p q : Q) : p == q -> coef_R p = coef_R q.
Proof.
  intros E. unfold coef_R. rewrite (Qeq_eqR _ _ E).
  assert (Qle_bool 0 p = Qle_bool 0 q) as ->; [|reflexivity].
  destruct (Qle_bool 0 p) eqn:Ep, (Qle_bool 0 q) eqn:Eq'; try reflexivity.
  - apply Qle_bool_iff in Ep. rewrite E in Ep. apply Qle_bool_iff in Ep. congruence.
  - apply Qle_bool_iff in Eq'. rewrite <- E in Eq'. apply Qle_bool_iff in Eq'. congruence.
Qed.

(** Scores compare as the real numbers they stand for. *)
Lemma coef_R_le_iff (p q : Q) : p <= q <-> (coef_R p <= coef_R q)%R.
Proof.
  split.
  - intros Hle. apply Qle_lteq in Hle. destruct Hle as [L|E].
    + apply Rlt_le. now apply coef_R_lt.
    + rewrite (coef_R_eq E). apply Rle_refl.
  - intros Hle. destruct (Qlt_le_dec q p) as [L|L]; [|exact L].
    apply coef_R_lt in L. Lra.lra.
Qed.

Lemma coef_R_one (q : Q) : q == 1 <-> coef_R q = 1%R.
Proof.
  assert (coef_R 1 = 1%R) as H1.
  { rewrite coef_R_nonneg by lra. rewrite RMicromega.Q2R_1. apply sqrt_1. }
  split.
  - intros E. now rewrite (coef_R_eq E).
  - intros E. rewrite <- H1 in E.
    destruct (Qlt_le_dec q 1) as [L|L].
    + apply coef_R_lt in L. Lra.lra.
    + apply Qle_lteq in L. destruct L as [L|L]; [|now symmetry].
      apply coef_R_lt in L. Lra.lra.
Qed.

(** A defined score stands for Pearson's coefficient
    [sxy / sqrt (sxx * syy)]. *)
Lemma pearson_real (x y : list Q) (q : Q) :
  pearson x y = Coef q -> coef_R q = pearson_R x y.
Proof.
  unfold pearson, pearson_R.
  set (dx := deviations (map fst (combine x y))).
  set (dy := deviations (map snd (combine x y))).
  destruct (Qeq_bool (dot dx dx * dot dy dy) 0) eqn:Eb; [discriminate|].
  intros E.
  assert (Qred (dot dx dy * Qabs (dot dx dy) / (dot dx dx * dot dy dy)) = q)
    as <- by congruence.
  clear E.
  assert (~ dot dx dx * dot dy dy == 0) as Hne.
  { intros E. apply Qeq_bool_iff in E. congruence. }
  pose proof (Qmult_le_0_compat _ _ (dot_self_nonneg dx) (dot_self_nonneg dy)) as Hd.
  assert (0 < dot dx dx * dot dy dy) as Hpos.
  { apply Qle_lteq in Hd. destruct Hd as [L|E]; [exact L|]. symmetry in E. contradiction. }
  rewrite <- Q2R_mult.
  set (D := dot dx dx * dot dy dy) in *. set (c := dot dx dy).
  rewrite (coef_R_eq (Qred_correct _)).
  pose proof (Qlt_Rlt _ _ Hpos) as HposR. rewrite RMicromega.Q2R_0 in HposR.
  assert (0 < sqrt (Q2R D))%R as Hs by now apply sqrt_lt_R0.
  destruct (Qlt_le_dec c 0) as [Hc|Hc].
  - pose proof (Qlt_Rlt _ _ Hc) as HcR. rewrite RMicromega.Q2R_0 in HcR.
    assert (c * Qabs c / D < 0) as Hq.
    { rewrite (Qabs_neg c) by lra.
      apply Qlt_shift_div_r; [exact Hpos|]. nra. }
    rewrite (coef_R_neg Hq).
    assert (- Q2R (c * Qabs c / D) = (Q2R c * Q2R c) / Q2R D)%R as ->.
    { rewrite Q2R_div by exact Hne. rewrite Q2R_mult.
      rewrite (Qeq_eqR _ _ (Qabs_neg c (Qlt_le_weak _ _ Hc))), Q2R_opp.
      field. Lra.lra. }
    rewrite sqrt_div_alt by exact HposR.
    replace (Q2R c * Q2R c)%R with ((- Q2R c) * (- Q2R c))%R by ring.
    rewrite sqrt_square by Lra.lra. field. Lra.lra.
  - pose proof (Qle_Rle _ _ Hc) as HcR. rewrite RMicromega.Q2R_0 in HcR.
    assert (0 <= c * Qabs c / D) as Hq.
    { rewrite (Qabs_pos c) by lra.
      apply Qle_shift_div_l; [exact Hpos|]. nra. }
    rewrite (coef_R_nonneg Hq).
    assert (Q2R (c * Qabs c / D) = (Q2R c * Q2R c) / Q2R D)%R as ->.
    { rewrite Q2R_div by exact Hne. rewrite Q2R_mult.
      now rewrite (Qeq_eqR _ _ (Qabs_pos c Hc)). }
    rewrite sqrt_div_alt by exact HposR.
    now rewrite sqrt_square by exact HcR.
Qed.

(* ================================================================== *)
(** * The examples of the specification *)
(* ================================================================== *)

Example three_users_matrix :
  movie_matrix three_users
  = {| index := [1; 2; 3]%Z;
       columns := ["A"; "B"]%string;
       data := [[5; 4; 1]; [1; 2; 5]] |}.
Proof. reflexivity. Qed.

Example three_users_ranking :
  similarity_ranker insertion_argsort (movie_matrix three_users) "A"%string
  = Ok [("A"%string, Coef 1); ("B"%string, Coef (-1))].
Proof. vm_compute. reflexivity. Qed.

Example three_movies_features :
  movie_features three_movies
  = {| index := ["Comedy"; "Drama"]%string;
       columns := ["M1"; "M2"; "M3"]%string;
       data := [[1; 1]; [0; 1]; [1; 0]]%Z |}.
Proof. reflexivity. Qed.

Example three_movies_ranking :
  content_recommendation insertion_argsort three_movies "M2"%string
  = Ok [("M2"%string, Coef 1); ("M3"%string, Coef (-1)); ("M1"%string, NaN)].
Proof. vm_compute. reflexivity. Qed.

Example three_movies_ranking64 :
  content_recommendation64 aquicksort three_movies "M2"%string
  = Ok [("M2"%string, below_one64); ("M3"%string, SFopp below_one64);
        ("M1"%string, S754_nan)].
Proof. vm_compute. reflexivity. Qed.

(** On a short array numpy's quicksort is the stable insertion sort. *)
Example aquicksort_short :
  aquicksort [3; 1; 2; 1; 3; 1] = [1; 3; 5; 2; 0; 4]%nat /\
  insertion_argsort [3; 1; 2; 1; 3; 1] = [1; 3; 5; 2; 0; 4]%nat.
Proof. split; vm_compute; reflexivity. Qed.

(* ================================================================== *)
(** * The rating matrix *)
(* ================================================================== *)

Lemma nodup_keys_check {K} `{Ordered K} (l : list K) :
  length (unique l) = length l -> NoDup l.
Proof.
  induction l as [|k t IH]; simpl; [constructor|].
  intros E. injection E as E.
  assert (length (filter (fun x => negb (key_eqb k x)) (unique t))
          <= length (unique t))%nat as L1 by apply filter_length_le.
  assert (length (unique t) <= length t)%nat as L2.
  { clear. induction t as [|h t IH]; simpl; [lia|].
    pose proof (filter_length_le (fun x => negb (key_eqb h x)) (unique t)). lia. }
  assert (length (unique t) = length t) as Et by lia.
  constructor; [|now apply IH].
  intros Hin. apply unique_In in Hin.
  assert (length (filter (fun x => negb (key_eqb k x)) (unique t))
          < length (unique t))%nat; [|lia].
  clear - Hin. induction (unique t) as [|h u IH]; simpl in *; [tauto|].
  destruct (key_eqb k h) eqn:E; simpl.
  - pose proof (filter_length_le (fun x => negb (key_eqb k x)) u). lia.
  - destruct Hin as [->|Hin]; [now rewrite key_eqb_refl in E|].
    specialize (IH Hin). lia.
Qed.

(** C1, as the code has it.  When no (user, title) pair is rated twice, the
    rating matrix has exactly one row per distinct user id and one column
    per distinct title, and the cell of a user and a title holds the rating
    that user gave that title if there is such a record, and 0 otherwise. *)
Theorem rating_matrix_correct (rows : list merged_row) :
  NoDup (map group_key rows) ->
  let m := movie_matrix rows in
  (NoDup (index m) /\
   (forall u, In u (index m) <-> In u (map userId rows)) /\
   length (index m) = length (unique (map userId rows))) /\
  (NoDup (columns m) /\
   (forall t, In t (columns m) <-> In t (map title rows)) /\
   length (columns m) = length (unique (map title rows))) /\
  (forall u t, In u (index m) -> In t (columns m) ->
     exists q, loc m u t = Some q /\
       (forall r, In r rows -> userId r = u -> title r = t -> q == rating r) /\
       ((forall r, In r rows -> ~ (userId r = u /\ title r = t)) -> q == 0)).
Proof.
  intros Hnd m. split; [|split].
  - split; [apply sort_unique_NoDup|]. split; [apply pivot_index_In|].
    unfold m. simpl. rewrite sort_unique_length.
    apply Permutation_length, NoDup_Permutation; try apply unique_NoDup.
    intros u. rewrite !unique_In.
    rewrite <- (sort_unique_In _ u). apply (pivot_index_In rows u).
  - split; [apply sort_unique_NoDup|]. split; [apply pivot_columns_In|].
    unfold m. simpl. rewrite sort_unique_length.
    apply Permutation_length, NoDup_Permutation; try apply unique_NoDup.
    intros t. rewrite !unique_In.
    rewrite <- (sort_unique_In _ t). apply (pivot_columns_In rows t).
  - intros u t Hu Ht. unfold m. rewrite (pivot_cell rows u t Hu Ht).
    eexists. split; [reflexivity|]. split.
    + intros r Hr Eu Et.
      assert (group_key r = (u, t)) as Ek by (unfold group_key; congruence).
      destruct (in_dec key_eq_dec (u, t) (map group_key rows)) as [i|n].
      * unfold group_values. rewrite <- Ek.
        rewrite (filter_key_singleton group_key rows r Hnd Hr).
        apply mean_singleton.
      * exfalso. apply n. rewrite <- Ek. now apply in_map.
    + intros Hno.
      destruct (in_dec key_eq_dec (u, t) (map group_key rows)) as [i|n];
        [|reflexivity].
      exfalso. apply in_map_iff in i. destruct i as (r & Ek & Hr).
      apply (Hno r Hr). unfold group_key in Ek. now inversion Ek.
Qed.

Lemma rating_matrix_correct_witness :
  NoDup (map group_key three_users) /\
  exists q, loc (movie_matrix three_users) 3%Z "B"%string = Some q /\ q == 5.
Proof.
  assert (NoDup (map group_key three_users)) as Hnd
      by (apply nodup_keys_check; reflexivity).
  split; [exact Hnd|].
  destruct (rating_matrix_correct three_users Hnd) as (_ & _ & Hcell).
  destruct (Hcell 3%Z "B"%string) as (q & Hq & Hr & _).
  - simpl. auto.
  - simpl. auto.
  - exists q. split; [exact Hq|].
    apply (Hr (rated 3 "B"%string 5)); simpl; auto 10.
Defined.

(** C1 as stated fails: user 1 rates items 2 and 3 once each, so no (user,
    item) pair is rated twice, but both items are titled "Emma" and the cell
    of user 1 and "Emma" holds 3, the mean of the two ratings 5 and 1. *)
Lemma shared_title_counterexample :
  NoDup (map (fun r => (r_userId r, r_movieId r)) emma_twice) /\
  map (fun row => (userId row, movieId row, title row, rating row))
      (merge emma_twice catalogue)
  = [(1%Z, 2%Z, "Emma"%string, 5); (1%Z, 3%Z, "Emma"%string, 1)] /\
  exists q,
    loc (movie_matrix (merge emma_twice catalogue)) 1%Z "Emma"%string = Some q /\
    q == 3 /\ ~ q == 5 /\ ~ q == 1.
Proof.
  split; [apply nodup_keys_check; reflexivity|].
  split; [reflexivity|].
  eexists. split; [reflexivity|].
  repeat split; intros E; discriminate E.
Qed.

(** C8.  When a (user, title) pair has one or several rating records, its
    cell holds the arithmetic mean of those ratings: their sum divided by
    their number. *)
Theorem duplicate_ratings_average (rows : list merged_row) (u : Z) (t : string) :
  ratings_of rows u t <> [] ->
  exists q, loc (movie_matrix rows) u t = Some q /\
            q == Qsum (ratings_of rows u t)
                 / inject_Z (Z.of_nat (length (ratings_of rows u t))).
Proof.
  intros Hne. rewrite <- group_values_ratings_of in *.
  pose proof (proj1 (group_values_nonempty rows (u, t)) Hne) as Hin.
  assert (In u (index (movie_matrix rows))) as Hu.
  { apply pivot_index_In. apply in_map_iff in Hin.
    destruct Hin as (r & Ek & Hr). apply in_map_iff. exists r.
    split; [|exact Hr]. unfold group_key in Ek. now inversion Ek. }
  assert (In t (columns (movie_matrix rows))) as Ht.
  { apply pivot_columns_In. apply in_map_iff in Hin.
    destruct Hin as (r & Ek & Hr). apply in_map_iff. exists r.
    split; [|exact Hr]. unfold group_key in Ek. now inversion Ek. }
  rewrite (pivot_cell rows u t Hu Ht).
  destruct (in_dec key_eq_dec (u, t) (map group_key rows)) as [_|n];
    [|contradiction].
  eexists. split; reflexivity.
Qed.

Lemma duplicate_ratings_average_witness :
  ratings_of rated_twice 2%Z "B"%string = [5; 4] /\
  exists q, loc (movie_matrix rated_twice) 2%Z "B"%string = Some q /\ q == 9 # 2.
Proof.
  split; [reflexivity|].
  destruct (duplicate_ratings_average rated_twice 2%Z "B"%string) as (q & Hq & Hm).
  - discriminate.
  - exists q. split; [exact Hq|]. rewrite Hm. reflexivity.
Defined.

(** C7, as the code has it.  The row keys of the rating matrix are the
    distinct user ids in ascending order and the column keys are the
    distinct titles in ascending lexicographic order, whatever the order of
    the input records. *)
Theorem matrix_keys_sorted (rows : list merged_row) :
  let m := movie_matrix rows in
  StronglySorted Z.lt (index m) /\
  (forall u, In u (index m) <-> In u (map userId rows)) /\
  StronglySorted (fun a b => String.compare a b = Lt) (columns m) /\
  (forall t, In t (columns m) <-> In t (map title rows)).
Proof.
  intros m. split; [|split; [|split]].
  - exact (sort_unique_sorted (K := Z) _).
  - apply pivot_index_In.
  - exact (sort_unique_sorted (K := string) _).
  - apply pivot_columns_In.
Qed.

(** C7 as stated fails: with user 2 and title "B" arriving first, the rows
    are [1; 2] and the columns ["A"; "B"], not the first-appearance orders
    [2; 1] and ["B"; "A"]. *)
Lemma first_appearance_order_counterexample :
  (index (movie_matrix late_keys_first) = [1; 2]%Z /\
   unique (map userId late_keys_first) = [2; 1]%Z) /\
  (columns (movie_matrix late_keys_first) = ["A"; "B"]%string /\
   unique (map title late_keys_first) = ["B"; "A"]%string) /\
  index (movie_matrix late_keys_first) <> unique (map userId late_keys_first) /\
  columns (movie_matrix late_keys_first) <> unique (map title late_keys_first).
Proof. repeat split; discriminate. Qed.

(* ================================================================== *)
(** * The similarity ranking *)
(* ================================================================== *)

(** C6.  Asking for a target that is not a column of the matrix fails with
    a key error (the [UnknownTargetError] of the specification) and yields
    no ranking. *)
Theorem unknown_target_fails {R C} `{Ordered C}
  (argsort : list Q -> list nat) (df : DataFrame R C Q) (movie : C) :
  ~ In movie (columns df) ->
  similarity_ranker argsort df movie = Raise (KeyError movie).
Proof.
  intros Hnot. unfold similarity_ranker, getitem.
  now rewrite (proj1 (get_loc_None movie (columns df)) Hnot).
Qed.

Lemma unknown_target_fails_witness :
  ~ In "Z"%string (columns (movie_matrix three_users)) /\
  similarity_ranker insertion_argsort (movie_matrix three_users) "Z"%string
  = Raise (KeyError "Z"%string).
Proof.
  assert (~ In "Z"%string (columns (movie_matrix three_users))) as Hnot.
  { simpl. intros [E|[E|[]]]; discriminate. }
  split; [exact Hnot|].
  apply unknown_target_fails. exact Hnot.
Defined.

(** C9, as the code has it.  When no cell of the target column deviates
    from the mean numpy computes for it, every score of the ranking is NaN,
    the target's own included, and the ranking lists the columns in their
    order. *)
Theorem zero_deviation_target_all_nan {R C} `{Ordered C}
  (argsort : list Q -> list nat) (df : DataFrame R C float64) (movie : C)
  (target : list float64) :
  rectangular df -> dense df ->
  getitem df movie = Some target ->
  Forall (fun d => is_zero64 d = true) (deviations64 target) ->
  exists out,
    similarity_ranker64 argsort df movie = Ok out /\
    Forall (fun e => snd e = S754_nan) out /\
    In (movie, S754_nan) out /\
    map fst out = columns df.
Proof.
  intros Hrect Hdense Hget Hdev.
  destruct (getitem_In df movie Hget) as [_ Htarget].
  apply (ranker64_all_nan argsort df movie (proj1 Hrect) Hget).
  intros col Hcol.
  rewrite (@nancorr_in_frame _ _ df target col Hrect Hdense Htarget Hcol).
  destruct target; [reflexivity|]. now apply corrcoef_zero_deviations.
Qed.

Lemma zero_deviation_target_all_nan_witness :
  rectangular twin_columns /\ dense twin_columns /\
  getitem twin_columns "C"%string = Some [float64_of_Z 3; float64_of_Z 3] /\
  exists out,
    similarity_ranker64 insertion_argsort twin_columns "C"%string = Ok out /\
    In ("C"%string, S754_nan) out.
Proof.
  assert (rectangular twin_columns) as Hr.
  { split; [reflexivity|]. repeat constructor. }
  assert (dense twin_columns) as Hd by (repeat constructor).
  assert (getitem twin_columns "C"%string
          = Some [float64_of_Z 3; float64_of_Z 3]) as Hget by reflexivity.
  assert (Forall (fun d => is_zero64 d = true)
                 (deviations64 [float64_of_Z 3; float64_of_Z 3])) as Hdev.
  { repeat constructor. }
  split; [exact Hr|]. split; [exact Hd|]. split; [exact Hget|].
  destruct (zero_deviation_target_all_nan insertion_argsort "C"%string
              Hr Hd Hget Hdev) as (out & Hout & _ & Hin & _).
  exists out. split; [exact Hout | exact Hin].
Defined.

(** C9 as stated fails: the target "A" holds 1.6666666666666667 in each of
    its seven cells, the mean numpy computes for it is 1.6666666666666665,
    so the deviations are not zero; its own score is 1 and it heads the
    ranking, and the score of "B" is 0, not NaN. *)
Lemma constant_target_counterexample :
  getitem seven_rows "A"%string = Some (repeat five_thirds 7) /\
  mean64 (repeat five_thirds 7) <> five_thirds /\
  similarity_ranker64 aquicksort seven_rows "A"%string
  = Ok [("A"%string, one64); ("B"%string, zero64)] /\
  target_on_top "A"%string [("A"%string, one64); ("B"%string, zero64)].
Proof.
  split; [reflexivity|]. split; [vm_compute; discriminate|].
  split; [vm_compute; reflexivity|]. now eexists.
Qed.



(** C4, as the code has it.  The ranking lists every column once with its
    score, in descending order of the scores, the undefined ones last. *)
Theorem ranking_sorted_descending {R C} `{Ordered C}
  (argsort : list Q -> list nat) (df : DataFrame R C float64) (movie : C)
  (out : list (C * float64)) :
  argsort_contract argsort ->
  similarity_ranker64 argsort df movie = Ok out ->
  (exists target,
      getitem df movie = Some target /\
      Permutation out (corrwith64 df target)) /\
  StronglySorted (fun a b => score_ge64 (snd a) (snd b)) out.
Proof.
  intros Hc. unfold similarity_ranker64.
  destruct (getitem df movie) as [target|]; [|discriminate].
  intros [= <-]. split.
  - exists target. split; [reflexivity|]. now apply sort_values64_perm.
  - now apply sort_values64_sorted.
Qed.

Lemma ranking_sorted_descending_witness :
  argsort_contract insertion_argsort /\
  StronglySorted (fun a b : string * float64 => score_ge64 (snd a) (snd b))
    [("B"%string, one64); ("A"%string, below_one64)].
Proof.
  assert (similarity_ranker64 insertion_argsort two_columns "A"%string
          = Ok [("B"%string, one64); ("A"%string, below_one64)])
    as Hout by (vm_compute; reflexivity).
  split; [exact insertion_argsort_contract|].
  exact (proj2 (ranking_sorted_descending two_columns "A"%string
                  insertion_argsort_contract Hout)).
Defined.

(** C4 as stated fails: the eighteen columns hold the same cells and have
    the same score against "T01"; numpy's quicksort partitions an array of
    eighteen values, and the ranking lists "T17" third and "T16" fourth,
    against the order of the columns. *)
Lemma stable_ties_counterexample :
  columns eighteen_columns = eighteen_titles /\
  exists out,
    similarity_ranker64 aquicksort eighteen_columns "T01"%string = Ok out /\
    Forall (fun e => snd e = below_one64) out /\
    map fst out
    = ["T01"; "T02"; "T17"; "T16"; "T15"; "T14"; "T13"; "T12"; "T11"; "T10";
       "T09"; "T08"; "T07"; "T06"; "T05"; "T04"; "T03"; "T18"]%string /\
    ~ ties_in_column_order (columns eighteen_columns) out.
Proof.
  split; [reflexivity|].
  eexists. split; [vm_compute; reflexivity|].
  split; [repeat constructor|]. split; [reflexivity|].
  intros Hst.
  destruct (Hst 2%nat 3%nat ("T17"%string, below_one64)
                ("T16"%string, below_one64))
    as (p & q & Hp & Hq & Hlt); try reflexivity; [lia|].
  vm_compute in Hp, Hq. injection Hp as <-. injection Hq as <-. lia.
Qed.




(* ================================================================== *)
(** * Items without ratings *)
(* ================================================================== *)

(** C10, as the code has it.  An item of the catalogue that no rating
    record refers to leaves no row in the merged data.  When, in addition,
    no rated item carries the same title, that title is not a column of the
    rating matrix and ranking against it fails with a key error. *)
Theorem unrated_item_absent
  (argsort : list Q -> list nat)
  (ratings : list rating_row) (movies : list movie_row) (m : movie_row) :
  In m movies ->
  (forall r, In r ratings -> r_movieId r <> m_movieId m) ->
  (forall row, In row (merge ratings movies) -> movieId row <> m_movieId m) /\
  ((forall m' r, In m' movies -> In r ratings ->
                 r_movieId r = m_movieId m' -> m_title m' <> m_title m) ->
   ~ In (m_title m) (columns (movie_matrix (merge ratings movies))) /\
   collaborative_recommendation argsort ratings movies (m_title m)
   = Raise (KeyError (m_title m))).
Proof.
  intros _ Hunrated. split.
  - intros row Hrow. apply merge_In in Hrow.
    destruct Hrow as (r & m' & Hr & _ & _ & ->). simpl. now apply Hunrated.
  - intros Htitle.
    assert (~ In (m_title m) (columns (movie_matrix (merge ratings movies)))) as Hnot.
    { intros Hin. apply pivot_columns_In in Hin. apply in_map_iff in Hin.
      destruct Hin as (row & Et & Hrow). apply merge_In in Hrow.
      destruct Hrow as (r & m' & Hr & Hm' & E & ->). simpl in Et.
      exact (Htitle m' r Hm' Hr E Et). }
    split; [exact Hnot|].
    unfold collaborative_recommendation, similarity_ranker, getitem.
    now rewrite (proj1 (get_loc_None _ _) Hnot).
Qed.

Lemma unrated_item_absent_witness :
  In (item 4 "Solaris" "Drama|Sci-Fi") catalogue /\
  (forall r, In r few_ratings -> r_movieId r <> 4%Z) /\
  collaborative_recommendation insertion_argsort few_ratings catalogue "Solaris"
  = Raise (KeyError "Solaris"%string).
Proof.
  assert (In (item 4 "Solaris" "Drama|Sci-Fi") catalogue) as Hin
      by (simpl; auto).
  assert (forall r, In r few_ratings ->
                    r_movieId r <> m_movieId (item 4 "Solaris" "Drama|Sci-Fi"))
    as Hun.
  { intros r [<-|[<-|[<-|[<-|[]]]]]; discriminate. }
  split; [exact Hin|]. split; [exact Hun|].
  apply (unrated_item_absent insertion_argsort few_ratings catalogue _ Hin Hun).
  intros m' r [<-|[<-|[<-|[<-|[]]]]] [<-|[<-|[<-|[<-|[]]]]]; simpl;
    intros E; discriminate.
Defined.

(** C10 as stated fails: item 3 of the catalogue has no rating, yet its
    title "Emma" is a column of the rating matrix, through item 2, and
    ranking against it returns a ranking. *)
Lemma unrated_title_counterexample :
  In (item 3 "Emma" "Comedy|Romance") catalogue /\
  (forall r, In r few_ratings -> r_movieId r <> 3%Z) /\
  In "Emma"%string (columns (movie_matrix (merge few_ratings catalogue))) /\
  collaborative_recommendation insertion_argsort few_ratings catalogue "Emma"
  = Ok [("Emma"%string, Coef 1); ("Heat"%string, Coef (-1))].
Proof.
  split; [simpl; auto|]. split.
  - intros r [<-|[<-|[<-|[<-|[]]]]]; discriminate.
  - split; [simpl; auto|]. vm_compute. reflexivity.
Qed.

(* ================================================================== *)
(** * The genre features *)
(* ================================================================== *)

(** C2 fails on the code: the feature table adds the indicator rows of a
    title up, so a label named twice in one genre field gives a cell of 2,
    and so does a label shared by two items with the same title. *)
Theorem duplicate_labels_counted :
  str_split "|"%char "Comedy|Comedy" = ["Comedy"; "Comedy"]%string /\
  loc (movie_features repeated_label) "Comedy"%string "M1"%string = Some 2%Z /\
  loc (movie_features catalogue) "Comedy"%string "Emma"%string = Some 2%Z.
Proof. repeat split. Qed.

(* ================================================================== *)
(** * Further properties of the notebook's code *)
(* ================================================================== *)

(** ** The join of cell 13 *)

(** X1.  The merged data holds exactly the pairs of a rating and a
    catalogue row with the same movie id, each carrying the fields of
    both: nothing else gets in, and no such pair is left out. *)
Theorem inner_join_rows (ratings : list rating_row) (movies : list movie_row)
  (u i ts : Z) (x : Q) (t : string) (g : option string) :
  In {| userId := u; movieId := i; rating := x; timestamp := ts;
        title := t; genres := g |} (merge ratings movies)
  <->
  In {| r_userId := u; r_movieId := i; r_rating := x; r_timestamp := ts |}
     ratings /\
  In {| m_movieId := i; m_title := t; m_genres := g |} movies.
Proof.
  rewrite merge_In. split.
  - intros ([u' i' x' ts'] & [i'' t' g'] & Hr & Hm & E & Erow).
    simpl in *. injection Erow as -> -> -> -> -> ->. subst i''. now split.
  - intros [Hr Hm].
    exists {| r_userId := u; r_movieId := i; r_rating := x; r_timestamp := ts |},
           {| m_movieId := i; m_title := t; m_genres := g |}.
    repeat split; assumption.
Qed.

Lemma filter_unique_id (movies : list movie_row) (m : movie_row) :
  NoDup (map m_movieId movies) -> In m movies ->
  filter (fun m' => Z.eqb (m_movieId m) (m_movieId m')) movies = [m].
Proof.
  induction movies as [|h t IH]; simpl; [tauto|].
  intros Hnd Hin. inversion Hnd as [|? ? Hnot Hnd']; subst.
  destruct Hin as [->|Hin].
  - rewrite Z.eqb_refl. f_equal.
    clear IH Hnd Hnd'. induction t as [|h t IHt]; simpl; [reflexivity|].
    destruct (Z.eqb_spec (m_movieId m) (m_movieId h)) as [E|N].
    + exfalso. apply Hnot. left. now symmetry.
    + apply IHt. intros Hin. apply Hnot. now right.
  - destruct (Z.eqb_spec (m_movieId m) (m_movieId h)) as [E|N].
    + exfalso. apply Hnot. rewrite <- E. now apply in_map.
    + now apply IH.
Qed.

Lemma flat_map_ext_in {A B} (f g : A -> list B) (l : list A) :
  (forall a, In a l -> f a = g a) -> flat_map f l = flat_map g l.
Proof.
  induction l as [|a l IH]; simpl; intros Hfg; [reflexivity|].
  rewrite Hfg by now left. f_equal. apply IH. intros x Hx. apply Hfg. now right.
Qed.

Lemma flat_map_singleton {A} (l : list A) : flat_map (fun x => [x]) l = l.
Proof. induction l as [|a l IH]; simpl; [reflexivity | now rewrite IH]. Qed.

(** The rows of a table, group by group, are a rearrangement of the
    table. *)
Lemma groups_perm {A} (f : A -> Z) (l : list A) :
  Permutation
    (flat_map (fun k => filter (fun x => Z.eqb (f x) k) l) (unique (map f l)))
    l.
Proof.
  induction l as [|r rs IH]; [reflexivity|].
  cbn [map unique flat_map filter]. rewrite Z.eqb_refl. cbn [app].
  apply perm_skip.
  set (others := filter (fun k => negb (key_eqb (f r) k)) (unique (map f rs))).
  rewrite (flat_map_ext_in _
             (fun k => filter (fun x => Z.eqb (f x) k) rs) others).
  2:{ intros k Hk. apply filter_In in Hk. destruct Hk as [_ Hk].
      destruct (Z.eqb_spec (f r) k) as [E|N]; [|reflexivity].
      subst k. now rewrite key_eqb_refl in Hk. }
  transitivity (flat_map (fun k => filter (fun x => Z.eqb (f x) k) rs)
                         (unique (map f rs))); [|exact IH].
  apply Permutation_sym. unfold others. clear IH.
  assert (~ In (f r) (unique (map f rs)) ->
          filter (fun x => Z.eqb (f x) (f r)) rs = []) as Hnone.
  { intros Hnot. rewrite unique_In in Hnot.
    induction rs as [|x rs IHrs]; [reflexivity|]. simpl.
    destruct (Z.eqb_spec (f x) (f r)) as [E|N].
    - exfalso. apply Hnot. left. exact E.
    - apply IHrs. intros Hin. apply Hnot. now right. }
  pose proof (unique_NoDup (map f rs)) as Hnd.
  revert Hnd Hnone. generalize (unique (map f rs)) as ks.
  induction ks as [|k ks IHks]; intros Hnd Hnone.
  - simpl. rewrite Hnone by tauto. reflexivity.
  - inversion Hnd as [|? ? Hk Hnd']; subst. cbn [filter flat_map].
    destruct (key_eqb (f r) k) eqn:E; cbn [negb flat_map].
    + apply key_eqb_eq in E. subst k. apply Permutation_app_head.
      rewrite filter_all; [reflexivity|].
      apply Forall_forall. intros k' Hk'.
      destruct (key_eqb (f r) k') eqn:E'; [|reflexivity].
      apply key_eqb_eq in E'. now subst k'.
    + apply key_eqb_neq in E.
      rewrite Permutation_app_swap_app. apply Permutation_app_head.
      apply IHks; [exact Hnd'|].
      intros Hnot. apply Hnone. intros [E'|Hin]; [now apply E | now apply Hnot].
Qed.

Lemma merge_ratings_grouped (ratings : list rating_row) (movies : list movie_row) :
  NoDup (map m_movieId movies) ->
  (forall r, In r ratings -> In (r_movieId r) (map m_movieId movies)) ->
  map (fun row => {| r_userId := userId row; r_movieId := movieId row;
                     r_rating := rating row; r_timestamp := timestamp row |})
      (merge ratings movies)
  = flat_map (fun k => filter (fun r => Z.eqb (r_movieId r) k) ratings)
             (unique (map r_movieId ratings)).
Proof.
  intros Hnd Hall. unfold merge.
  rewrite flat_map_concat_map, concat_map, map_map, <- flat_map_concat_map.
  apply flat_map_ext_in. intros k _.
  rewrite flat_map_concat_map, concat_map, map_map, <- flat_map_concat_map.
  rewrite <- (flat_map_singleton (filter (fun r => Z.eqb (r_movieId r) k) ratings))
    at 2.
  apply flat_map_ext_in. intros r Hr. apply filter_In in Hr.
  destruct Hr as [Hr Ek]. apply Z.eqb_eq in Ek. subst k.
  destruct (proj1 (in_map_iff _ _ _) (Hall r Hr)) as (m & Em & Hm).
  rewrite <- Em. rewrite (filter_unique_id movies m Hnd Hm). simpl.
  now destruct r.
Qed.

(** X2.  When the movie ids of the catalogue are distinct and every rated
    movie is in the catalogue, the join neither drops nor repeats a rating:
    the merged rows are the ratings grouped by movie id, the ids in the
    order in which the ratings first name them and the ratings of one id in
    their own order; they are a rearrangement of the ratings, and there are
    [len(ratings)] of them. *)
Theorem merge_keeps_ratings (ratings : list rating_row) (movies : list movie_row) :
  NoDup (map m_movieId movies) ->
  (forall r, In r ratings -> In (r_movieId r) (map m_movieId movies)) ->
  let merged_ratings :=
    map (fun row => {| r_userId := userId row; r_movieId := movieId row;
                       r_rating := rating row; r_timestamp := timestamp row |})
        (merge ratings movies) in
  merged_ratings
  = flat_map (fun k => filter (fun r => Z.eqb (r_movieId r) k) ratings)
             (unique (map r_movieId ratings)) /\
  Permutation merged_ratings ratings /\
  length (merge ratings movies) = length ratings.
Proof.
  intros Hnd Hall merged_ratings.
  pose proof (merge_ratings_grouped ratings movies Hnd Hall) as E.
  fold merged_ratings in E.
  assert (Permutation merged_ratings ratings) as Hp
      by (rewrite E; apply groups_perm).
  split; [exact E|]. split; [exact Hp|].
  rewrite <- (Permutation_length Hp). unfold merged_ratings.
  now rewrite length_map.
Qed.

Lemma merge_keeps_ratings_witness :
  NoDup (map m_movieId catalogue) /\
  map (fun row => (userId row, movieId row))
      (merge [rating_of 1 1 4; rating_of 1 2 3; rating_of 2 1 5] catalogue)
  = [(1, 1); (2, 1); (1, 2)]%Z /\
  length (merge few_ratings catalogue) = length few_ratings.
Proof.
  assert (NoDup (map m_movieId catalogue)) as Hnd
      by (apply nodup_keys_check; reflexivity).
  split; [exact Hnd|]. split; [reflexivity|].
  apply (merge_keeps_ratings few_ratings catalogue Hnd).
  intros r [<-|[<-|[<-|[<-|[]]]]]; simpl; auto.
Defined.

(** ** The rating matrix of cell 18 *)

Lemma movie_matrix_shape (rows : list merged_row) :
  rectangular (movie_matrix rows).
Proof.
  unfold rectangular, movie_matrix, fillna, pivot_table, unstack. simpl.
  split.
  - now rewrite !length_map.
  - apply Forall_map, Forall_map, Forall_forall. intros t _.
    now rewrite !length_map.
Qed.

Lemma sorted_same_elements {K} `{Ordered K} (l l' : list K) :
  StronglySorted key_lt l -> StronglySorted key_lt l' ->
  (forall x, In x l <-> In x l') -> l = l'.
Proof.
  intros Hl. revert l'. induction Hl as [|a l Hl IH Ha]; intros l' Hl' Hsame.
  - destruct l' as [|b l']; [reflexivity|].
    destruct (proj2 (Hsame b) (or_introl eq_refl)).
  - destruct l' as [|b l'].
    { destruct (proj1 (Hsame a) (or_introl eq_refl)). }
    inversion Hl' as [|? ? Hl'' Hb]; subst.
    rewrite Forall_forall in Ha, Hb.
    assert (a = b) as ->.
    { destruct (proj1 (Hsame a) (or_introl eq_refl)) as [E|Hinb]; [now symmetry|].
      destruct (proj2 (Hsame b) (or_introl eq_refl)) as [E|Hina]; [exact E|].
      pose proof (Ha b Hina) as L1. pose proof (Hb a Hinb) as L2.
      unfold key_lt in *. rewrite (cmp_lt_gt _ _ L1) in L2. discriminate. }
    f_equal. apply IH; [exact Hl''|].
    intros x. split; intros Hx.
    + destruct (proj1 (Hsame x) (or_intror Hx)) as [E|Hx']; [|exact Hx'].
      subst x. specialize (Ha b Hx). unfold key_lt in Ha.
      now rewrite cmp_refl in Ha.
    + destruct (proj2 (Hsame x) (or_intror Hx)) as [E|Hx']; [|exact Hx'].
      subst x. specialize (Hb b Hx). unfold key_lt in Hb.
      now rewrite cmp_refl in Hb.
Qed.

Lemma filter_perm {A} (f : A -> bool) (l l' : list A) :
  Permutation l l' -> Permutation (filter f l) (filter f l').
Proof.
  induction 1 as [|x l l' _ IH|x y l|l l' l'' _ IH1 _ IH2]; simpl.
  - reflexivity.
  - destruct (f x); [now constructor | exact IH].
  - destruct (f x), (f y); try reflexivity. apply perm_swap.
  - now transitivity (filter f l').
Qed.

(** A group of at most one record is the same in every order of the
    records. *)
Lemma single_ratings_perm (rows rows' : list merged_row) (u : Z) (t : string) :
  Permutation rows rows' ->
  NoDup (map group_key rows) ->
  ratings_of rows' u t = ratings_of rows u t.
Proof.
  intros Hp Hnd. rewrite <- !group_values_ratings_of. unfold group_values.
  pose proof (filter_perm (fun r => key_eqb (group_key r) (u, t)) Hp) as Hf.
  destruct (filter (fun r => key_eqb (group_key r) (u, t)) rows)
    as [|r l] eqn:E.
  - now rewrite (Permutation_nil Hf).
  - assert (In r (filter (fun r => key_eqb (group_key r) (u, t)) rows)) as Hin
        by (rewrite E; now left).
    apply filter_In in Hin. destruct Hin as [Hr Hk]. apply key_eqb_eq in Hk.
    rewrite <- Hk in E. rewrite (filter_key_singleton group_key rows r Hnd Hr) in E.
    injection E as <-. now rewrite (Permutation_length_1_inv Hf).
Qed.

(** X4.  Reordering the rating records leaves the row keys and the column
    keys of the rating matrix as they are, and leaves every cell as it is
    whose ratings come in the same order in both inputs (the mean is a sum
    taken in input order).  When no (user, title) pair is rated twice this
    is every cell. *)
Theorem matrix_order_independent (rows rows' : list merged_row) :
  Permutation rows rows' ->
  index (movie_matrix rows') = index (movie_matrix rows) /\
  columns (movie_matrix rows') = columns (movie_matrix rows) /\
  (forall u t, ratings_of rows' u t = ratings_of rows u t ->
               loc (movie_matrix rows') u t = loc (movie_matrix rows) u t) /\
  (NoDup (map group_key rows) ->
   forall u t, loc (movie_matrix rows') u t = loc (movie_matrix rows) u t).
Proof.
  intros Hp.
  assert (forall {B} (f : merged_row -> B) x,
             In x (map f rows') <-> In x (map f rows)) as Hmap.
  { intros B f x. split; apply Permutation_in;
      [apply Permutation_sym|]; now apply Permutation_map. }
  assert (index (movie_matrix rows') = index (movie_matrix rows)) as Ei.
  { apply sorted_same_elements;
      try exact (sort_unique_sorted (K := Z) _).
    intros u. rewrite !pivot_index_In. apply Hmap. }
  assert (columns (movie_matrix rows') = columns (movie_matrix rows)) as Ec.
  { apply sorted_same_elements;
      try exact (sort_unique_sorted (K := string) _).
    intros t. rewrite !pivot_columns_In. apply Hmap. }
  assert (forall u t, ratings_of rows' u t = ratings_of rows u t ->
            loc (movie_matrix rows') u t = loc (movie_matrix rows) u t) as Hcell.
  { intros u t Hsame. rewrite <- !group_values_ratings_of in Hsame.
    destruct (in_dec key_eq_dec u (index (movie_matrix rows))) as [Hu|Hu];
      [destruct (in_dec key_eq_dec t (columns (movie_matrix rows))) as [Ht|Ht]|].
    - rewrite (pivot_cell rows u t Hu Ht).
      rewrite <- Ei in Hu. rewrite <- Ec in Ht.
      rewrite (pivot_cell rows' u t Hu Ht). rewrite Hsame.
      destruct (in_dec key_eq_dec (u, t) (map group_key rows')) as [i'|n'];
        destruct (in_dec key_eq_dec (u, t) (map group_key rows)) as [i|n];
        try reflexivity.
      + exfalso. apply n. now apply Hmap.
      + exfalso. apply n'. now apply Hmap.
    - unfold loc. rewrite Ec.
      now rewrite (proj1 (get_loc_None t _) Ht).
    - unfold loc. rewrite Ei, Ec.
      rewrite (proj1 (get_loc_None u _) Hu).
      now destruct (get_loc t (columns (movie_matrix rows))). }
  split; [exact Ei|]. split; [exact Ec|]. split; [exact Hcell|].
  intros Hnd u t. apply Hcell. now apply single_ratings_perm.
Qed.

Lemma matrix_order_independent_witness :
  Permutation three_users (rev three_users) /\
  NoDup (map group_key three_users) /\
  movie_matrix (rev three_users) = movie_matrix three_users /\
  loc (movie_matrix (rev three_users)) 3%Z "B"%string
  = loc (movie_matrix three_users) 3%Z "B"%string.
Proof.
  assert (Permutation three_users (rev three_users)) as Hp
      by apply Permutation_rev.
  assert (NoDup (map group_key three_users)) as Hnd
      by (apply nodup_keys_check; reflexivity).
  split; [exact Hp|]. split; [exact Hnd|]. split; [reflexivity|].
  exact (proj2 (proj2 (proj2 (matrix_order_independent Hp))) Hnd 3%Z "B"%string).
Defined.

(** ** The genre lists of cell 26 *)

Lemma str_split_cons (sep : ascii) (s : string) :
  exists h t, str_split sep s = h :: t.
Proof.
  destruct s as [|c rest]; simpl; [now eexists; eexists|].
  destruct (Ascii.eqb c sep); [now eexists; eexists|].
  destruct (str_split sep rest); now eexists; eexists.
Qed.

(** X5.  Splitting a genre field at the separator loses nothing: the
    labels joined by the separator give the field back, no label contains
    the separator, and there is always at least one label. *)
Theorem str_split_join (sep : ascii) (s : string) :
  str_join sep (str_split sep s) = s /\
  Forall (fun label => ~ contains sep label) (str_split sep s) /\
  str_split sep s <> [].
Proof.
  split; [|split].
  - induction s as [|c rest IH]; [reflexivity|]. simpl.
    destruct (Ascii.eqb_spec c sep) as [->|N].
    + destruct (str_split_cons sep rest) as (h & t & E).
      rewrite E in *.
      change (str_join sep (EmptyString :: h :: t))
        with (String sep (str_join sep (h :: t))).
      now rewrite IH.
    + destruct (str_split sep rest) as [|h t];
        [simpl in IH; now subst rest|].
      destruct t as [|h' t'].
      * simpl in *. now rewrite IH.
      * change (str_join sep (String c h :: h' :: t'))
          with (String c (str_join sep (h :: h' :: t'))).
        now rewrite IH.
  - induction s as [|c rest IH]; simpl.
    + constructor; [tauto | constructor].
    + destruct (Ascii.eqb_spec c sep) as [->|N].
      * constructor; [simpl; tauto | exact IH].
      * destruct (str_split sep rest) as [|h t].
        -- constructor; [|constructor]. simpl. intros [E|[]]. contradiction.
        -- inversion IH as [|? ? Hh Ht]; subst. constructor; [|exact Ht].
           simpl. intros [E|Hc]; [contradiction | now apply Hh].
  - destruct (str_split_cons sep s) as (h & t & ->). discriminate.
Qed.

(** ** The feature table of cell 30 *)

Lemma transpose_tabulate {R C A} (idx : list R) (cols : list C) (f : R -> C -> A) :
  transpose {| index := idx; columns := cols;
               data := map (fun c => map (fun r => f r c) idx) cols |}
  = {| index := cols; columns := idx;
       data := map (fun r => map (fun c => f r c) cols) idx |}.
Proof.
  unfold transpose. simpl. f_equal. apply nth_error_ext. intros k.
  rewrite !nth_error_map, nth_error_seq.
  destruct (Nat.ltb_spec k (length idx)) as [L|L].
  - destruct (nth_error idx k) as [r|] eqn:E;
      [|apply nth_error_None in E; lia].
    simpl. f_equal.
    induction cols as [|c cols IH]; simpl; [reflexivity|].
    rewrite nth_error_map, E. simpl. now f_equal.
  - now rewrite (proj2 (nth_error_None idx k) L).
Qed.

Lemma movie_features_table (movies : list movie_row) :
  movie_features movies
  = {| index := sort_unique (present_labels (explode movies));
       columns := unique (map fst (explode movies));
       data := map (fun t => map (fun g => label_count movies t g)
                                 (sort_unique (present_labels (explode movies))))
                   (unique (map fst (explode movies))) |}.
Proof.
  unfold movie_features.
  assert (sum_level0 (get_dummies (explode movies))
          = {| index := unique (map fst (explode movies));
               columns := sort_unique (present_labels (explode movies));
               data :=
                 map (fun c =>
                        map (fun t => label_count movies t c)
                            (unique (map fst (explode movies))))
                     (sort_unique (present_labels (explode movies))) |}) as ->.
  { unfold sum_level0, get_dummies. simpl. f_equal.
    rewrite map_map. apply map_ext. intros c. apply map_ext. intros t'.
    apply (group_sum_combine fst (fun e => indicator c (snd e))). }
  apply (transpose_tabulate _ _ (fun t c => label_count movies t c)).
Qed.

Lemma Zsum_app (a b : list Z) : Zsum (a ++ b) = (Zsum a + Zsum b)%Z.
Proof. induction a as [|x a IH]; simpl; [reflexivity | rewrite IH; lia]. Qed.

Lemma Zsum_cons (x : Z) (l : list Z) : Zsum (x :: l) = (x + Zsum l)%Z.
Proof. reflexivity. Qed.

Lemma indicator_sum (t t' g : string) (labels : list string) :
  Zsum (map (fun e : string * option string =>
               if key_eqb (fst e) t then indicator g (snd e) else 0%Z)
            (map (fun l => (t', Some l)) labels))
  = if String.eqb t' t
    then Z.of_nat (count_occ string_dec labels g) else 0%Z.
Proof.
  induction labels as [|l ls IH].
  - simpl. now destruct (String.eqb t' t).
  - rewrite !map_cons, Zsum_cons, IH. cbn [fst snd indicator].
    destruct (String.eqb_spec t' t) as [->|N].
    + rewrite key_eqb_refl.
      destruct (string_dec l g) as [->|Nl].
      * rewrite key_eqb_refl, count_occ_cons_eq by reflexivity. lia.
      * rewrite (proj2 (key_eqb_neq l g) Nl), count_occ_cons_neq by exact Nl.
        lia.
    + now rewrite (proj2 (key_eqb_neq t' t) N).
Qed.

(** The cell sums, row by row of the catalogue. *)
Lemma label_count_occurrences (movies : list movie_row) (t g : string) :
  label_count movies t g
  = Zsum (map (fun m => if String.eqb (m_title m) t
                        then label_occurrences g m else 0%Z) movies).
Proof.
  unfold label_count.
  induction movies as [|m ms IH]; [reflexivity|].
  cbn [explode flat_map]. fold (explode ms).
  rewrite map_app, Zsum_app, IH, map_cons, Zsum_cons.
  f_equal. unfold label_occurrences, labels_of.
  destruct (split_genres m) as [[|l ls]|].
  - simpl. destruct (key_eqb (m_title m) t), (String.eqb (m_title m) t); reflexivity.
  - apply (indicator_sum t (m_title m) g (l :: ls)).
  - simpl. destruct (key_eqb (m_title m) t), (String.eqb (m_title m) t); reflexivity.
Qed.

Lemma feature_cell_occurrences (movies : list movie_row) (g t : string) :
  In g (index (movie_features movies)) ->
  In t (columns (movie_features movies)) ->
  loc (movie_features movies) g t
  = Some (Zsum (map (fun m => if String.eqb (m_title m) t
                              then label_occurrences g m else 0%Z) movies)).
Proof.
  intros Hg Ht. rewrite (feature_cell movies g t Hg Ht).
  now rewrite label_count_occurrences.
Qed.

(** X6.  Every cell of the feature table is a count: the cell of a genre
    and a title is the number of times the rows of the catalogue with that
    title name that genre. *)
Theorem feature_cell_counts (movies : list movie_row) (g t : string) :
  In g (index (movie_features movies)) ->
  In t (columns (movie_features movies)) ->
  loc (movie_features movies) g t
  = Some (Zsum (map (fun m => if String.eqb (m_title m) t
                              then label_occurrences g m else 0%Z) movies)).
Proof. apply feature_cell_occurrences. Qed.

Lemma feature_cell_counts_witness :
  In "Comedy"%string (index (movie_features catalogue)) /\
  In "Emma"%string (columns (movie_features catalogue)) /\
  loc (movie_features catalogue) "Comedy"%string "Emma"%string = Some 2%Z.
Proof.
  assert (In "Comedy"%string (index (movie_features catalogue))) as Hg
      by (simpl; auto).
  assert (In "Emma"%string (columns (movie_features catalogue))) as Ht
      by (simpl; auto).
  split; [exact Hg|]. split; [exact Ht|].
  exact (feature_cell_counts catalogue "Comedy" "Emma" Hg Ht).
Defined.

Lemma other_titles_add_nothing (movies : list movie_row) (t g : string) :
  ~ In t (map m_title movies) ->
  Zsum (map (fun m => if String.eqb (m_title m) t
                      then label_occurrences g m else 0%Z) movies) = 0%Z.
Proof.
  induction movies as [|m ms IH]; [reflexivity|]. simpl. intros Hnot.
  destruct (String.eqb_spec (m_title m) t) as [E|N]; [tauto|].
  apply IH. tauto.
Qed.

(** X7.  Without duplicates the feature table is binary: when the titles
    of the catalogue are distinct and no row names a label twice, the cell
    of a genre and an item is 1 if the item's genre list names the genre
    and 0 if it does not. *)
Theorem features_binary_without_duplicates
  (movies : list movie_row) (m : movie_row) (g : string) :
  NoDup (map m_title movies) ->
  (forall m', In m' movies -> NoDup (labels_of m')) ->
  In m movies ->
  In g (index (movie_features movies)) ->
  loc (movie_features movies) g (m_title m)
  = Some (if in_dec string_dec g (labels_of m) then 1%Z else 0%Z).
Proof.
  intros Htitles Hlabels Hm Hg.
  assert (In (m_title m) (columns (movie_features movies))) as Ht.
  { rewrite movie_features_table. simpl. apply unique_In.
    clear - Hm. induction movies as [|m0 ms IH]; [destruct Hm|].
    cbn [explode flat_map]. fold (explode ms). rewrite map_app.
    apply in_or_app. destruct Hm as [->|Hm]; [left | right; now apply IH].
    destruct (split_genres m) as [[|l ls]|]; simpl; auto. }
  rewrite (feature_cell_occurrences movies g (m_title m) Hg Ht). f_equal.
  assert (label_occurrences g m
          = if in_dec string_dec g (labels_of m) then 1%Z else 0%Z) as Eocc.
  { unfold label_occurrences.
    destruct (in_dec string_dec g (labels_of m)) as [Hin|Hn].
    - now rewrite (proj1 (NoDup_count_occ' string_dec _) (Hlabels m Hm) g Hin).
    - now rewrite (proj1 (count_occ_not_In string_dec _ _) Hn). }
  rewrite <- Eocc. clear Eocc Hg Ht Hlabels.
  induction movies as [|m0 ms IH]; [destruct Hm|].
  inversion Htitles as [|? ? Hnot Hnd]; subst. rewrite map_cons, Zsum_cons.
  destruct Hm as [->|Hm].
  - rewrite String.eqb_refl, (other_titles_add_nothing ms _ g Hnot). lia.
  - destruct (String.eqb_spec (m_title m0) (m_title m)) as [E|N].
    + exfalso. apply Hnot. rewrite E. now apply in_map.
    + rewrite (IH Hnd Hm). lia.
Qed.

Lemma features_binary_without_duplicates_witness :
  NoDup (map m_title three_movies) /\
  (forall m', In m' three_movies -> NoDup (labels_of m')) /\
  loc (movie_features three_movies) "Drama"%string "M3"%string = Some 0%Z /\
  loc (movie_features three_movies) "Drama"%string "M1"%string = Some 1%Z.
Proof.
  assert (NoDup (map m_title three_movies)) as Ht
      by (apply nodup_keys_check; reflexivity).
  assert (forall m', In m' three_movies -> NoDup (labels_of m')) as Hl.
  { intros m' [<-|[<-|[<-|[]]]]; apply nodup_keys_check; reflexivity. }
  assert (In "Drama"%string (index (movie_features three_movies))) as Hg
      by (simpl; auto).
  split; [exact Ht|]. split; [exact Hl|]. split.
  - apply (features_binary_without_duplicates three_movies
             (item 3 "M3" "Comedy") "Drama" Ht Hl); simpl; auto.
  - apply (features_binary_without_duplicates three_movies
             (item 1 "M1" "Comedy|Drama") "Drama" Ht Hl); simpl; auto.
Defined.

Lemma movie_features_shape (movies : list movie_row) :
  rectangular (movie_features movies).
Proof.
  rewrite movie_features_table. unfold rectangular. simpl. split.
  - now rewrite length_map.
  - apply Forall_map, Forall_forall. intros t _. now rewrite length_map.
Qed.

(** ** Which titles can be ranked *)

Lemma getitem_Some_iff {R C A} `{Ordered C} (df : DataFrame R C A) (c : C) :
  length (data df) = length (columns df) ->
  (exists col, getitem df c = Some col) <-> In c (columns df).
Proof.
  intros Hlen. unfold getitem. split.
  - intros (col & E).
    destruct (in_dec key_eq_dec c (columns df)) as [Hin|Hn]; [exact Hin|].
    rewrite (proj1 (get_loc_None c _) Hn) in E. discriminate.
  - intros Hin. destruct (get_loc_Some c _ Hin) as (j & -> & Hj).
    destruct (nth_error (data df) j) as [col|] eqn:E; [now exists col|].
    apply nth_error_None in E.
    assert (j < length (columns df))%nat by (apply nth_error_Some; congruence).
    lia.
Qed.

Lemma ranker_Ok_iff {R C} `{Ordered C} (argsort : list Q -> list nat)
  (df : DataFrame R C Q) (movie : C) :
  length (data df) = length (columns df) ->
  (exists out, similarity_ranker argsort df movie = Ok out)
  <-> In movie (columns df).
Proof.
  intros Hlen. rewrite <- (getitem_Some_iff df movie Hlen).
  unfold similarity_ranker. split.
  - intros (out & E). destruct (getitem df movie) as [col|]; [now exists col|].
    discriminate.
  - intros (col & ->). now eexists.
Qed.

Lemma explode_titles (movies : list movie_row) (t : string) :
  In t (map fst (explode movies)) <-> In t (map m_title movies).
Proof.
  induction movies as [|m ms IH]; [reflexivity|].
  cbn [explode flat_map]. fold (explode ms).
  rewrite map_app, in_app_iff, IH. cbn [map In].
  destruct (split_genres m) as [[|l ls]|]; simpl; try tauto.
  rewrite map_map. simpl. split; [|tauto].
  intros [[E|Hin]|Hin]; [now left | | now right].
  apply in_map_iff in Hin. destruct Hin as (x & E & _). now left.
Qed.

Lemma genres_are_text_iff (movies : list movie_row) :
  genres_are_text movies = true <->
  movies = [] \/ exists m, In m movies /\ m_genres m <> None.
Proof.
  unfold genres_are_text. destruct movies as [|m0 ms]; [tauto|].
  rewrite existsb_exists. split.
  - intros (m & Hm & E). right. exists m. split; [exact Hm|].
    destruct (m_genres m); [discriminate | discriminate E].
  - intros [E|(m & Hm & E)]; [discriminate|]. exists m. split; [exact Hm|].
    now destruct (m_genres m).
Qed.

Lemma content_defined_iff (argsort : list Q -> list nat)
  (movies : list movie_row) (movie : string) :
  (exists out, content_recommendation argsort movies movie = Ok out)
  <-> (exists m, In m movies /\ m_genres m <> None) /\
      In movie (map m_title movies).
Proof.
  unfold content_recommendation.
  destruct (genres_are_text movies) eqn:Etext.
  - rewrite ranker_Ok_iff.
    + rewrite movie_features_table. simpl. rewrite unique_In, explode_titles.
      apply genres_are_text_iff in Etext. split; [|tauto].
      intros Hin. split; [|exact Hin].
      destruct Etext as [->|Hex]; [destruct Hin | exact Hex].
    + unfold astype_float. simpl. rewrite length_map.
      apply movie_features_shape.
  - split; [intros (out & E); discriminate|].
    intros [Hex _]. exfalso.
    assert (genres_are_text movies = true) as E
        by (apply genres_are_text_iff; now right).
    congruence.
Qed.

(** X8.  Content filtering has no cold start: a title can be ranked by
    its genres exactly when some row of the catalogue carries it, rated or
    not, and some row of the catalogue has a genres field.  When the
    catalogue has rows and none has a genres field, the split of cell 26
    fails with an attribute error whatever the title. *)
Theorem content_ranking_defined (argsort : list Q -> list nat)
  (movies : list movie_row) (movie : string) :
  ((exists out, content_recommendation argsort movies movie = Ok out)
   <-> (exists m, In m movies /\ m_genres m <> None) /\
       In movie (map m_title movies)) /\
  (movies <> [] -> (forall m, In m movies -> m_genres m = None) ->
   content_recommendation argsort movies movie = Raise AttributeError).
Proof.
  split; [apply content_defined_iff|].
  intros Hne Hnone. unfold content_recommendation.
  destruct (genres_are_text movies) eqn:Etext; [|reflexivity].
  apply genres_are_text_iff in Etext.
  destruct Etext as [->|(m & Hm & E)]; [now destruct Hne|].
  now destruct (E (Hnone m Hm)).
Qed.

Lemma content_ranking_defined_witness :
  [Build_movie_row 1 "N" None; Build_movie_row 2 "P" None] <> [] /\
  content_recommendation insertion_argsort
    [Build_movie_row 1 "N" None; Build_movie_row 2 "P" None] "N"%string
  = Raise AttributeError.
Proof.
  assert ([Build_movie_row 1 "N" None; Build_movie_row 2 "P" None] <> [])
    as Hne by discriminate.
  split; [exact Hne|].
  apply (proj2 (content_ranking_defined insertion_argsort
                  [Build_movie_row 1 "N" None; Build_movie_row 2 "P" None]
                  "N"%string) Hne).
  intros m [<-|[<-|[]]]; reflexivity.
Defined.

Lemma collaborative_defined_iff (argsort : list Q -> list nat)
  (ratings : list rating_row) (movies : list movie_row) (movie : string) :
  (exists out, collaborative_recommendation argsort ratings movies movie = Ok out)
  <-> exists r m, In r ratings /\ In m movies /\
                  r_movieId r = m_movieId m /\ m_title m = movie.
Proof.
  unfold collaborative_recommendation.
  rewrite ranker_Ok_iff by apply movie_matrix_shape.
  rewrite pivot_columns_In, in_map_iff. split.
  - intros (row & Et & Hrow). apply merge_In in Hrow.
    destruct Hrow as (r & m & Hr & Hm & E & ->). simpl in Et.
    now exists r, m.
  - intros (r & m & Hr & Hm & E & Et).
    exists {| userId := r_userId r; movieId := r_movieId r;
              rating := r_rating r; timestamp := r_timestamp r;
              title := m_title m; genres := m_genres m |}.
    split; [exact Et|]. apply merge_In. now exists r, m.
Qed.

(** X9.  Collaborative filtering has the cold start: a title can be
    ranked by its ratings exactly when some rating record refers to a
    catalogue row with that title. *)
Theorem collaborative_ranking_defined (argsort : list Q -> list nat)
  (ratings : list rating_row) (movies : list movie_row) (movie : string) :
  (exists out, collaborative_recommendation argsort ratings movies movie = Ok out)
  <-> exists r m, In r ratings /\ In m movies /\
                  r_movieId r = m_movieId m /\ m_title m = movie.
Proof. apply collaborative_defined_iff. Qed.

(** X10.  Whatever collaborative filtering can rank, content filtering
    can rank too, provided some row of the catalogue has a genres field. *)
Theorem content_covers_collaborative (argsort : list Q -> list nat)
  (ratings : list rating_row) (movies : list movie_row) (movie : string)
  (out : list (string * score)) :
  (exists m, In m movies /\ m_genres m <> None) ->
  collaborative_recommendation argsort ratings movies movie = Ok out ->
  exists out', content_recommendation argsort movies movie = Ok out'.
Proof.
  intros Htext Hout. apply content_defined_iff. split; [exact Htext|].
  destruct (proj1 (collaborative_defined_iff argsort ratings movies movie)
                  (ex_intro _ out Hout)) as (r & m & _ & Hm & _ & <-).
  now apply in_map.
Qed.

Lemma content_covers_collaborative_witness :
  (exists m, In m catalogue /\ m_genres m <> None) /\
  exists out', content_recommendation insertion_argsort catalogue "Emma" = Ok out'.
Proof.
  assert (exists m, In m catalogue /\ m_genres m <> None) as Htext.
  { exists (item 1 "Heat" "Action|Crime"). split; [now left | discriminate]. }
  assert (collaborative_recommendation insertion_argsort few_ratings catalogue
                                       "Emma"
          = Ok [("Emma"%string, Coef 1); ("Heat"%string, Coef (-1))]) as H
      by (vm_compute; reflexivity).
  split; [exact Htext|].
  eapply content_covers_collaborative; [exact Htext | exact H].
Defined.

(** ** The scores of cells 20 and 31 *)

Lemma ranking_In {R C} `{Ordered C} (argsort : list Q -> list nat)
  (df : DataFrame R C Q) (movie : C) (out : list (C * score)) (e : C * score) :
  similarity_ranker argsort df movie = Ok out -> In e out ->
  exists target, getitem df movie = Some target /\ In e (corrwith df target).
Proof.
  unfold similarity_ranker.
  destruct (getitem df movie) as [target|]; [|discriminate].
  intros [= <-] Hin. exists target. split; [reflexivity|].
  unfold sort_values, sort_values_by in Hin. apply in_app_or in Hin.
  destruct Hin as [Hin|Hin].
  - apply take_In in Hin. now apply filter_In in Hin.
  - now apply filter_In in Hin.
Qed.

(** X12.  Every defined score of a ranking lies between -1 and 1, whatever
    sort is used. *)
Theorem ranking_scores_in_range {R C} `{Ordered C}
  (argsort : list Q -> list nat) (df : DataFrame R C Q) (movie : C)
  (out : list (C * score)) :
  similarity_ranker argsort df movie = Ok out ->
  forall c q, In (c, Coef q) out -> -1 <= q <= 1.
Proof.
  intros Hout c q Hin.
  destruct (ranking_In _ _ _ _ Hout Hin) as (target & _ & Hc).
  apply corrwith_In in Hc. destruct Hc as (_ & col & _ & Es). simpl in Es.
  symmetry in Es. now apply pearson_range in Es.
Qed.

Lemma ranking_scores_in_range_witness :
  similarity_ranker insertion_argsort (movie_matrix three_users) "A"%string
  = Ok [("A"%string, Coef 1); ("B"%string, Coef (-1))] /\
  -1 <= -1 <= 1.
Proof.
  assert (similarity_ranker insertion_argsort (movie_matrix three_users) "A"%string
          = Ok [("A"%string, Coef 1); ("B"%string, Coef (-1))])
    as Hout by (vm_compute; reflexivity).
  split; [exact Hout|].
  apply (ranking_scores_in_range insertion_argsort (movie_matrix three_users)
           "A"%string Hout "B"%string (-1)).
  simpl. auto.
Defined.

Lemma combine_same_length {A B} (x : list A) (y : list B) :
  length x = length y ->
  map fst (combine x y) = x /\ map snd (combine x y) = y.
Proof.
  revert y. induction x as [|a x IH]; intros [|b y]; simpl; try discriminate;
    auto.
  intros [= E]. destruct (IH y E) as [-> ->]. auto.
Qed.

(** X14.  With the ratings of a single user nothing can be ranked
    meaningfully: when the matrix has at most one row, every score of every
    ranking is undefined. *)
Theorem single_row_all_nan {R C} `{Ordered C}
  (argsort : list Q -> list nat) (df : DataFrame R C Q) (movie : C)
  (out : list (C * score)) :
  rectangular df ->
  (length (index df) <= 1)%nat ->
  similarity_ranker argsort df movie = Ok out ->
  Forall (fun e => snd e = NaN) out.
Proof.
  intros [_ Hrect] Hone Hout. apply Forall_forall. intros e He.
  destruct (ranking_In _ _ _ _ Hout He) as (target & Hget & Hc).
  apply corrwith_In in Hc. destruct Hc as (_ & col & _ & ->).
  apply pearson_constant.
  assert (In target (data df)) as Ht.
  { unfold getitem in Hget.
    destruct (get_loc movie (columns df)); [|discriminate].
    eapply nth_error_In, Hget. }
  rewrite Forall_forall in Hrect. specialize (Hrect _ Ht).
  destruct target as [|a [|b target]]; simpl in *; try lia.
  - intros u v [].
  - intros u v [<-|[]] [<-|[]]. reflexivity.
Qed.

Lemma single_row_all_nan_witness :
  rectangular (movie_matrix lone_user) /\
  (length (index (movie_matrix lone_user)) <= 1)%nat /\
  Forall (fun e : string * score => snd e = NaN)
         [("A"%string, NaN); ("B"%string, NaN)].
Proof.
  pose proof (movie_matrix_shape lone_user) as Hr.
  assert (length (index (movie_matrix lone_user)) <= 1)%nat as Hone
      by (simpl; lia).
  assert (similarity_ranker insertion_argsort (movie_matrix lone_user) "A"%string
          = Ok [("A"%string, NaN); ("B"%string, NaN)]) as Hout
      by (vm_compute; reflexivity).
  split; [exact Hr|]. split; [exact Hone|].
  eapply single_row_all_nan; [exact Hr | exact Hone | exact Hout].
Defined.

(** ** What a ranking lists *)

(** X15.  A ranking names every column of the matrix exactly once: its
    labels are a rearrangement of the column labels, the target's own
    among them. *)
Theorem ranking_lists_every_column {R C} `{Ordered C}
  (argsort : list Q -> list nat) (df : DataFrame R C Q) (movie : C)
  (out : list (C * score)) :
  argsort_contract argsort ->
  length (data df) = length (columns df) ->
  similarity_ranker argsort df movie = Ok out ->
  Permutation (map fst out) (columns df) /\ In movie (map fst out).
Proof.
  intros Hc Hlen Hout.
  assert (Permutation (map fst out) (columns df)) as Hp.
  { unfold similarity_ranker in Hout.
    destruct (getitem df movie) as [target|]; [|discriminate].
    injection Hout as <-.
    rewrite (Permutation_map fst (sort_values_perm Hc (corrwith df target))).
    unfold corrwith.
    destruct (combine_same_length (columns df)
                (map (fun col => pearson target col) (data df))) as [-> _];
      [now rewrite length_map | reflexivity]. }
  split; [exact Hp|].
  apply (Permutation_in _ (Permutation_sym Hp)).
  apply (ranker_Ok_iff argsort df movie Hlen). now exists out.
Qed.

Lemma ranking_lists_every_column_witness :
  argsort_contract insertion_argsort /\
  Permutation ["A"; "B"; "C"]%string (columns (movie_matrix twin_titles)).
Proof.
  assert (similarity_ranker insertion_argsort (movie_matrix twin_titles) "A"%string
          = Ok [("A"%string, Coef 1); ("B"%string, Coef 1); ("C"%string, NaN)])
    as Hout by (vm_compute; reflexivity).
  split; [exact insertion_argsort_contract|].
  exact (proj1 (ranking_lists_every_column (movie_matrix twin_titles) "A"%string
                  insertion_argsort_contract eq_refl Hout)).
Defined.

Lemma sorted_across {A} (R : A -> A -> Prop) (l1 l2 : list A) :
  StronglySorted R (l1 ++ l2) ->
  forall a b, In a l1 -> In b l2 -> R a b.
Proof.
  induction l1 as [|x l1 IH]; simpl; intros Hs a b Ha Hb; [destruct Ha|].
  inversion Hs as [|? ? Hs' Hx]; subst. destruct Ha as [<-|Ha].
  - rewrite Forall_forall in Hx. apply Hx, in_or_app. now right.
  - now apply IH.
Qed.

Lemma ranking_sorted {R C} `{Ordered C}
  (argsort : list Q -> list nat) (df : DataFrame R C Q) (movie : C)
  (out : list (C * score)) :
  argsort_contract argsort ->
  similarity_ranker argsort df movie = Ok out ->
  StronglySorted (fun a b => score_ge (snd a) (snd b)) out.
Proof.
  intros Hc. unfold similarity_ranker.
  destruct (getitem df movie) as [target|]; [|discriminate].
  intros [= <-]. now apply sort_values_sorted.
Qed.

(** X16.  The table shown under a ranking holds its first ten entries, or
    all of them when there are fewer; no entry left out scores higher than
    an entry shown, and an unknown target gives the key error of the
    ranking. *)
Theorem top_ten_are_the_best {R C} `{Ordered C}
  (argsort : list Q -> list nat) (df : DataFrame R C Q) (movie : C) :
  argsort_contract argsort ->
  match similarity_ranker argsort df movie with
  | Raise e => top_ten argsort df movie = Raise e
  | Ok out =>
      exists shown,
        top_ten argsort df movie = Ok shown /\
        out = shown ++ skipn 10 out /\
        length shown = Nat.min 10 (length out) /\
        forall a b, In a shown -> In b (skipn 10 out) ->
                    score_ge (snd a) (snd b)
  end.
Proof.
  intros Hc. unfold top_ten.
  destruct (similarity_ranker argsort df movie) as [out|e] eqn:Hout;
    [|reflexivity].
  exists (head 10 out). unfold head. split; [reflexivity|].
  split; [now rewrite firstn_skipn|]. split; [apply length_firstn|].
  apply sorted_across. rewrite firstn_skipn.
  exact (ranking_sorted df movie Hc Hout).
Qed.

Lemma top_ten_are_the_best_witness :
  argsort_contract insertion_argsort /\
  exists out shown,
    similarity_ranker insertion_argsort (movie_matrix twelve_titles) "T02"%string
    = Ok out /\
    top_ten insertion_argsort (movie_matrix twelve_titles) "T02"%string
    = Ok shown /\
    length out = 12%nat /\ length shown = 10%nat.
Proof.
  split; [exact insertion_argsort_contract|].
  pose proof (top_ten_are_the_best (movie_matrix twelve_titles) "T02"%string
                insertion_argsort_contract) as H.
  destruct (similarity_ranker insertion_argsort (movie_matrix twelve_titles)
                              "T02"%string) as [out|e] eqn:Hout;
    [|vm_compute in Hout; discriminate Hout].
  destruct H as (shown & Hshown & _ & Hlen & _).
  assert (length out = 12%nat) as H12
      by (vm_compute in Hout; injection Hout as <-; reflexivity).
  exists out, shown. split; [reflexivity|]. split; [exact Hshown|].
  split; [exact H12|]. rewrite Hlen, H12. reflexivity.
Defined.

(** ** The sorted view of cell 14 *)

(** X17.  The view of cell 14 shows every merged row once, the ratings
    running from the highest to the lowest. *)
Theorem sort_by_rating_descending (argsort : list Q -> list nat)
  (merged_data : list merged_row) :
  argsort_contract argsort ->
  Permutation (sort_by_rating argsort merged_data) merged_data /\
  StronglySorted (fun a b => rating b <= rating a)
                 (sort_by_rating argsort merged_data).
Proof.
  intros Hc. unfold sort_by_rating.
  pose proof (nargsort_descending_perm Hc (map rating merged_data)) as Hp.
  rewrite length_map in Hp. split.
  - now apply take_perm.
  - apply StronglySorted_map_inv with (f := rating) (R := fun x y => y <= x).
    assert (Forall (fun i => i < length merged_data)%nat
                   (nargsort_descending argsort (map rating merged_data)))
      as Hidx.
    { apply Forall_forall. intros i Hi.
      apply (Permutation_in _ Hp) in Hi. apply in_seq in Hi. lia. }
    rewrite (map_take rating merged_data Hidx).
    now apply nargsort_descending_sorted.
Qed.

Lemma sort_by_rating_descending_witness :
  argsort_contract insertion_argsort /\
  map rating (sort_by_rating insertion_argsort three_users) = [5; 5; 4; 2; 1; 1] /\
  Permutation (sort_by_rating insertion_argsort three_users) three_users.
Proof.
  split; [exact insertion_argsort_contract|]. split; [reflexivity|].
  exact (proj1 (sort_by_rating_descending three_users insertion_argsort_contract)).
Defined.

(** ** The counts of cell 8 and the shape of the matrix *)

Lemma find_same_id (movies : list movie_row) (m : movie_row) :
  In m movies ->
  exists m', find (fun x => Z.eqb (m_movieId m) (m_movieId x)) movies = Some m'
             /\ In m' movies /\ m_movieId m' = m_movieId m.
Proof.
  induction movies as [|h t IH]; simpl; [tauto|]. intros Hin.
  destruct (Z.eqb_spec (m_movieId m) (m_movieId h)) as [E|N].
  - exists h. auto.
  - destruct Hin as [->|Hin]; [congruence|].
    destruct (IH Hin) as (m' & Hf & Hm' & E). exists m'. auto.
Qed.

Lemma NoDup_map_inj_on {A B} (f : A -> B) (l : list A) :
  NoDup (map f l) -> forall a b, In a l -> In b l -> f a = f b -> a = b.
Proof.
  induction l as [|h t IH]; simpl; [tauto|].
  intros Hnd a b Ha Hb E. inversion Hnd as [|? ? Hnot Hnd']; subst.
  destruct Ha as [->|Ha], Hb as [->|Hb]; auto.
  - exfalso. apply Hnot. rewrite E. now apply in_map.
  - exfalso. apply Hnot. rewrite <- E. now apply in_map.
Qed.

Lemma matrix_axis_lengths (rows : list merged_row) :
  length (index (movie_matrix rows)) = length (unique (map userId rows)) /\
  length (columns (movie_matrix rows)) = length (unique (map title rows)).
Proof.
  split.
  - apply Permutation_length, NoDup_Permutation;
      [exact (sort_unique_NoDup _) | apply unique_NoDup |].
    intros u. rewrite unique_In. apply pivot_index_In.
  - apply Permutation_length, NoDup_Permutation;
      [exact (sort_unique_NoDup _) | apply unique_NoDup |].
    intros t. rewrite unique_In. apply pivot_columns_In.
Qed.

Lemma unique_length_incl {K} `{Ordered K} (l l' : list K) :
  (forall x, In x l -> In x l') ->
  (length (unique l) <= length (unique l'))%nat.
Proof.
  intros Hincl. apply NoDup_incl_length; [apply unique_NoDup|].
  intros x Hx. apply (proj2 (unique_In l' x)). apply Hincl.
  exact (proj1 (unique_In l x) Hx).
Qed.

(** X18.  The counts printed in cell 8 bound the shape of the rating
    matrix: it has at most as many rows as there are distinct user ids among
    the ratings, and at most as many columns as there are distinct titles
    in the catalogue. *)
Theorem matrix_shape_bounded (ratings : list rating_row) (movies : list movie_row) :
  (length (index (movie_matrix (merge ratings movies)))
   <= nunique (map r_userId ratings))%nat /\
  (length (columns (movie_matrix (merge ratings movies)))
   <= nunique (map m_title movies))%nat.
Proof.
  destruct (matrix_axis_lengths (merge ratings movies)) as [-> ->].
  unfold nunique. split; apply unique_length_incl; intros x Hx;
    apply in_map_iff in Hx; destruct Hx as (row & <- & Hrow);
    apply merge_In in Hrow; destruct Hrow as (r & m & Hr & Hm & _ & ->);
    simpl; now apply in_map.
Qed.

(** X19.  When the movie ids of the catalogue are distinct and every rated
    movie is in the catalogue, the matrix has exactly one row per distinct
    user id of the ratings, and at most one column per distinct rated movie
    id (fewer when rated movies share a title). *)
Theorem matrix_shape_from_counts (ratings : list rating_row) (movies : list movie_row) :
  NoDup (map m_movieId movies) ->
  (forall r, In r ratings -> In (r_movieId r) (map m_movieId movies)) ->
  length (index (movie_matrix (merge ratings movies)))
  = nunique (map r_userId ratings) /\
  (length (columns (movie_matrix (merge ratings movies)))
   <= nunique (map r_movieId ratings))%nat.
Proof.
  intros Hnd Hall.
  destruct (matrix_axis_lengths (merge ratings movies)) as [-> ->].
  unfold nunique. split.
  - apply Nat.le_antisymm; apply unique_length_incl; intros u Hu.
    + apply in_map_iff in Hu. destruct Hu as (row & <- & Hrow).
      apply merge_In in Hrow. destruct Hrow as (r & m & Hr & _ & _ & ->).
      simpl. now apply in_map.
    + apply in_map_iff in Hu. destruct Hu as (r & <- & Hr).
      destruct (proj1 (in_map_iff _ _ _) (Hall r Hr)) as (m & Em & Hm).
      apply in_map_iff.
      exists (merged_of r m). split; [reflexivity|].
      apply merge_In. exists r, m. auto.
  - transitivity (length (map (title_of movies) (unique (map r_movieId ratings))));
      [|now rewrite length_map].
    apply NoDup_incl_length; [apply unique_NoDup|].
    intros t Ht. apply (proj1 (unique_In _ t)) in Ht.
    apply in_map_iff in Ht. destruct Ht as (row & <- & Hrow).
    apply merge_In in Hrow. destruct Hrow as (r & m & Hr & Hm & E & ->).
    simpl. apply in_map_iff. exists (r_movieId r). split.
    + unfold title_of. rewrite E.
      destruct (find_same_id movies m Hm) as (m' & -> & Hm' & E').
      f_equal. now apply (NoDup_map_inj_on m_movieId movies Hnd).
    + apply (proj2 (unique_In _ _)). now apply in_map.
Qed.

Lemma matrix_shape_from_counts_witness :
  NoDup (map m_movieId catalogue) /\
  length (index (movie_matrix (merge few_ratings catalogue))) = 2%nat /\
  nunique (map r_userId few_ratings) = 2%nat.
Proof.
  assert (NoDup (map m_movieId catalogue)) as Hnd
      by (apply nodup_keys_check; reflexivity).
  assert (forall r, In r few_ratings -> In (r_movieId r) (map m_movieId catalogue))
    as Hall.
  { intros r [<-|[<-|[<-|[<-|[]]]]]; simpl; auto. }
  split; [exact Hnd|]. split; [|reflexivity].
  rewrite (proj1 (matrix_shape_from_counts few_ratings catalogue Hnd Hall)).
  reflexivity.
Defined.

(** ** Missing ratings and zeros *)

Lemma group_values_app (rows : list merged_row) (r0 : merged_row) (k : Z * string) :
  group_values (rows ++ [r0]) k
  = group_values rows k
    ++ (if key_eqb (group_key r0) k then [rating r0] else []).
Proof.
  unfold group_values. rewrite filter_app, map_app. simpl.
  now destruct (key_eqb (group_key r0) k).
Qed.

(** X20.  A rating of 0 cannot be told from no rating: adding a record
    with rating 0 for a user and a title that are both known but have no
    record together leaves the row keys, the column keys and every cell of
    the rating matrix as they were. *)
Theorem zero_rating_is_absence (rows : list merged_row) (r0 : merged_row) :
  In (userId r0) (map userId rows) ->
  In (title r0) (map title rows) ->
  ~ In (group_key r0) (map group_key rows) ->
  rating r0 == 0 ->
  index (movie_matrix (rows ++ [r0])) = index (movie_matrix rows) /\
  columns (movie_matrix (rows ++ [r0])) = columns (movie_matrix rows) /\
  forall u t, same_cell (loc (movie_matrix (rows ++ [r0])) u t)
                        (loc (movie_matrix rows) u t).
Proof.
  intros Hu0 Ht0 Hnew Hzero.
  assert (index (movie_matrix (rows ++ [r0])) = index (movie_matrix rows)) as Ei.
  { apply sorted_same_elements;
      try exact (sort_unique_sorted (K := Z) _).
    intros u. rewrite !pivot_index_In, map_app, in_app_iff. simpl.
    split; [|tauto]. intros [H|[<-|[]]]; assumption. }
  assert (columns (movie_matrix (rows ++ [r0])) = columns (movie_matrix rows))
    as Ec.
  { apply sorted_same_elements;
      try exact (sort_unique_sorted (K := string) _).
    intros t. rewrite !pivot_columns_In, map_app, in_app_iff. simpl.
    split; [|tauto]. intros [H|[<-|[]]]; assumption. }
  split; [exact Ei|]. split; [exact Ec|].
  intros u t.
  destruct (in_dec key_eq_dec u (index (movie_matrix rows))) as [Hu|Hu];
    [destruct (in_dec key_eq_dec t (columns (movie_matrix rows))) as [Ht|Ht]|].
  - rewrite (pivot_cell rows u t Hu Ht).
    rewrite <- Ei in Hu. rewrite <- Ec in Ht.
    rewrite (pivot_cell (rows ++ [r0]) u t Hu Ht). simpl.
    rewrite group_values_app.
    destruct (key_eq_dec (group_key r0) (u, t)) as [E|N].
    + rewrite (proj2 (key_eqb_eq _ _) E).
      destruct (in_dec key_eq_dec (u, t) (map group_key (rows ++ [r0])))
        as [_|n']; [|exfalso; apply n'; rewrite map_app; apply in_or_app;
                     right; left; exact E].
      destruct (in_dec key_eq_dec (u, t) (map group_key rows)) as [i|_];
        [exfalso; apply Hnew; now rewrite E|].
      assert (group_values rows (u, t) = []) as ->.
      { destruct (group_values rows (u, t)) as [|x l] eqn:Eg; [reflexivity|].
        exfalso. apply Hnew. rewrite E. apply group_values_nonempty.
        now rewrite Eg. }
      simpl. rewrite mean_singleton. exact Hzero.
    + rewrite (proj2 (key_eqb_neq _ _) N), app_nil_r.
      destruct (in_dec key_eq_dec (u, t) (map group_key (rows ++ [r0])))
        as [i'|n'];
        destruct (in_dec key_eq_dec (u, t) (map group_key rows)) as [i|n];
        try reflexivity.
      * exfalso. rewrite map_app in i'. apply in_app_or in i'.
        destruct i' as [i'|[E|[]]]; [now apply n | now apply N].
      * exfalso. apply n'. rewrite map_app. apply in_or_app. now left.
  - unfold loc. rewrite Ec.
    now rewrite (proj1 (get_loc_None t _) Ht).
  - unfold loc. rewrite Ei, Ec.
    rewrite (proj1 (get_loc_None u _) Hu).
    now destruct (get_loc t (columns (movie_matrix rows))).
Qed.

Lemma zero_rating_is_absence_witness :
  ~ In (group_key (rated 1 "B" 0)) (map group_key rated_twice) /\
  index (movie_matrix (rated_twice ++ [rated 1 "B" 0]))
  = index (movie_matrix rated_twice) /\
  same_cell (loc (movie_matrix (rated_twice ++ [rated 1 "B" 0])) 1%Z "B"%string)
            (loc (movie_matrix rated_twice) 1%Z "B"%string).
Proof.
  assert (~ In (group_key (rated 1 "B" 0)) (map group_key rated_twice)) as Hnew.
  { simpl. intros [E|[E|[E|[]]]]; discriminate. }
  assert (In (userId (rated 1 "B" 0)) (map userId rated_twice)) as Hu
      by (simpl; auto).
  assert (In (title (rated 1 "B" 0)) (map title rated_twice)) as Ht
      by (simpl; auto).
  assert (rating (rated 1 "B" 0) == 0) as Hz by reflexivity.
  split; [exact Hnew|].
  destruct (zero_rating_is_absence rated_twice (rated 1 "B" 0) Hu Ht Hnew Hz)
    as (Ei & _ & Hcell).
  split; [exact Ei | apply Hcell].
Defined.

(** ** The scores of cells 20 and 31 in float64 *)

(** X22.  In float64 every score of a ranking is NaN or lies between -1
    and 1: numpy clips the quotient it computes. *)
Theorem ranking64_scores_in_range {R C} `{Ordered C}
  (argsort : list Q -> list nat) (df : DataFrame R C float64) (movie : C)
  (out : list (C * float64)) :
  similarity_ranker64 argsort df movie = Ok out ->
  Forall (fun e => in_unit_range (snd e)) out.
Proof.
  intros Hout. apply Forall_forall. intros e He.
  destruct (ranking64_In _ _ _ _ Hout He) as (target & _ & Hc).
  apply corrwith64_In in Hc. destruct Hc as (_ & col & _ & ->).
  apply nancorr_range.
Qed.

Lemma ranking64_scores_in_range_witness :
  similarity_ranker64 insertion_argsort two_columns "A"%string
  = Ok [("B"%string, one64); ("A"%string, below_one64)] /\
  in_unit_range below_one64.
Proof.
  assert (similarity_ranker64 insertion_argsort two_columns "A"%string
          = Ok [("B"%string, one64); ("A"%string, below_one64)])
    as Hout by (vm_compute; reflexivity).
  split; [exact Hout|].
  pose proof (ranking64_scores_in_range insertion_argsort two_columns
                "A"%string Hout) as Hall.
  rewrite Forall_forall in Hall.
  exact (Hall ("A"%string, below_one64) (or_intror (or_introl eq_refl))).
Defined.

(** X23.  In float64 the entries with a NaN score come after every entry
    with a number, and they stand in the order of their columns. *)
Theorem ranking64_undefined_last {R C} `{Ordered C}
  (argsort : list Q -> list nat) (df : DataFrame R C float64) (movie : C)
  (out : list (C * float64)) :
  similarity_ranker64 argsort df movie = Ok out ->
  exists target defined,
    getitem df movie = Some target /\
    out = defined
          ++ filter (fun e => isna (snd e)) (corrwith64 df target) /\
    Forall (fun e => isna (snd e) = false) defined.
Proof.
  unfold similarity_ranker64.
  destruct (getitem df movie) as [target|]; [|discriminate].
  intros [= <-].
  destruct (sort_values64_split argsort (corrwith64 df target))
    as (d & E & Hd).
  exists target, d. split; [reflexivity|]. split; [exact E|].
  eapply Forall_impl; [|exact Hd]. now intros e [_ He].
Qed.

Lemma ranking64_undefined_last_witness :
  similarity_ranker64 insertion_argsort twin_columns "A"%string
  = Ok [("A"%string, below_one64); ("B"%string, below_one64);
        ("C"%string, S754_nan)] /\
  exists target defined,
    getitem twin_columns "A"%string = Some target /\
    [("A"%string, below_one64); ("B"%string, below_one64);
     ("C"%string, S754_nan)]
    = defined ++ filter (fun e => isna (snd e)) (corrwith64 twin_columns target).
Proof.
  assert (similarity_ranker64 insertion_argsort twin_columns "A"%string
          = Ok [("A"%string, below_one64); ("B"%string, below_one64);
                ("C"%string, S754_nan)])
    as Hout by (vm_compute; reflexivity).
  split; [exact Hout|].
  destruct (ranking64_undefined_last insertion_argsort twin_columns
              "A"%string Hout) as (target & defined & Hget & E & _).
  exists target, defined. split; [exact Hget | exact E].
Defined.

(** X24.  With a single row every float64 score is NaN: the factor of the
    covariance is then 1 / 0.0, and the quotient of two infinities is
    NaN. *)
Theorem single_row_all_nan64 {R C} `{Ordered C}
  (argsort : list Q -> list nat) (df : DataFrame R C float64) (movie : C)
  (out : list (C * float64)) :
  rectangular df ->
  (length (index df) <= 1)%nat ->
  similarity_ranker64 argsort df movie = Ok out ->
  Forall (fun e => snd e = S754_nan) out.
Proof.
  intros [_ Hrect] Hone Hout. apply Forall_forall. intros e He.
  destruct (ranking64_In _ _ _ _ Hout He) as (target & Hget & Hc).
  apply corrwith64_In in Hc. destruct Hc as (_ & col & _ & Es).
  etransitivity; [exact Es|]. apply nancorr_single_row.
  destruct (getitem_In df movie Hget) as [_ Ht].
  rewrite Forall_forall in Hrect. now rewrite (Hrect _ Ht).
Qed.

Lemma single_row_all_nan64_witness :
  rectangular (frame64 [1]%Z ["A"; "B"]%string [[3]; [5]]%Z) /\
  Forall (fun e : string * float64 => snd e = S754_nan)
         [("A"%string, S754_nan); ("B"%string, S754_nan)].
Proof.
  assert (rectangular (frame64 [1]%Z ["A"; "B"]%string [[3]; [5]]%Z)) as Hr.
  { split; [reflexivity|]. repeat constructor. }
  assert (similarity_ranker64 insertion_argsort
            (frame64 [1]%Z ["A"; "B"]%string [[3]; [5]]%Z) "A"%string
          = Ok [("A"%string, S754_nan); ("B"%string, S754_nan)]) as Hout
      by (vm_compute; reflexivity).
  split; [exact Hr|].
  eapply single_row_all_nan64; [exact Hr | | exact Hout]. simpl. lia.
Defined.

(** X25.  Against a column of zeros, such as the feature column of a title
    without any genre, every float64 score is NaN, and the ranking lists
    the columns in their order. *)
Theorem zero_column_target_all_nan {R C} `{Ordered C}
  (argsort : list Q -> list nat) (df : DataFrame R C float64) (movie : C)
  (target : list float64) :
  rectangular df -> dense df ->
  getitem df movie = Some target ->
  Forall (fun x => is_zero64 x = true) target ->
  exists out,
    similarity_ranker64 argsort df movie = Ok out /\
    Forall (fun e => snd e = S754_nan) out /\
    In (movie, S754_nan) out /\
    map fst out = columns df.
Proof.
  intros Hrect Hdense Hget Hzero.
  destruct (getitem_In df movie Hget) as [_ Htarget].
  apply (ranker64_all_nan argsort df movie (proj1 Hrect) Hget).
  intros col Hcol.
  rewrite (@nancorr_in_frame _ _ df target col Hrect Hdense Htarget Hcol).
  destruct target; [reflexivity|].
  now apply corrcoef_zero_or_nan, zero_column_deviations.
Qed.

Lemma zero_column_target_all_nan_witness :
  rectangular (frame64 [1; 2]%Z ["A"; "B"]%string [[0; 0]; [1; 2]]%Z) /\
  dense (frame64 [1; 2]%Z ["A"; "B"]%string [[0; 0]; [1; 2]]%Z) /\
  exists out,
    similarity_ranker64 insertion_argsort
      (frame64 [1; 2]%Z ["A"; "B"]%string [[0; 0]; [1; 2]]%Z) "A"%string
    = Ok out /\
    map fst out = ["A"; "B"]%string.
Proof.
  assert (rectangular (frame64 [1; 2]%Z ["A"; "B"]%string [[0; 0]; [1; 2]]%Z))
    as Hr.
  { split; [reflexivity|]. repeat constructor. }
  assert (dense (frame64 [1; 2]%Z ["A"; "B"]%string [[0; 0]; [1; 2]]%Z))
    as Hd by (repeat constructor).
  assert (getitem (frame64 [1; 2]%Z ["A"; "B"]%string [[0; 0]; [1; 2]]%Z)
                  "A"%string
          = Some [zero64; zero64]) as Hget by reflexivity.
  assert (Forall (fun x => is_zero64 x = true) [zero64; zero64]) as Hz
      by (repeat constructor).
  split; [exact Hr|]. split; [exact Hd|].
  destruct (zero_column_target_all_nan insertion_argsort "A"%string
              Hr Hd Hget Hz) as (out & Hout & _ & _ & Hcols).
  exists out. split; [exact Hout | exact Hcols].
Defined.

Lemma ranker64_Ok_iff {R C} `{Ordered C} (argsort : list Q -> list nat)
  (df : DataFrame R C float64) (movie : C) :
  length (data df) = length (columns df) ->
  (exists out, similarity_ranker64 argsort df movie = Ok out)
  <-> In movie (columns df).
Proof.
  intros Hlen. rewrite <- (getitem_Some_iff df movie Hlen).
  unfold similarity_ranker64. split.
  - intros (out & E). destruct (getitem df movie) as [col|]; [now exists col|].
    discriminate.
  - intros (col & ->). now eexists.
Qed.

(** X26.  The float64 ranking by genres is produced exactly when some row
    of the catalogue carries the title and some row has a genres field;
    when the catalogue has rows and none has a genres field, cell 26 fails
    with an attribute error. *)
Theorem content64_ranking_defined (argsort : list Q -> list nat)
  (movies : list movie_row) (movie : string) :
  ((exists out, content_recommendation64 argsort movies movie = Ok out)
   <-> (exists m, In m movies /\ m_genres m <> None) /\
       In movie (map m_title movies)) /\
  (movies <> [] -> (forall m, In m movies -> m_genres m = None) ->
   content_recommendation64 argsort movies movie = Raise AttributeError).
Proof.
  unfold content_recommendation64.
  destruct (genres_are_text movies) eqn:Etext.
  - apply genres_are_text_iff in Etext. split.
    + rewrite ranker64_Ok_iff.
      * rewrite movie_features_table. simpl. rewrite unique_In, explode_titles.
        split; [|tauto]. intros Hin. split; [|exact Hin].
        destruct Etext as [->|Hex]; [destruct Hin | exact Hex].
      * unfold astype_float64. simpl. rewrite length_map.
        apply movie_features_shape.
    + intros Hne Hnone. exfalso.
      destruct Etext as [->|(m & Hm & E)]; [now destruct Hne|].
      now destruct (E (Hnone m Hm)).
  - split; [|reflexivity].
    split; [intros (out & E); discriminate|].
    intros [Hex _]. exfalso.
    assert (genres_are_text movies = true) as E
        by (apply genres_are_text_iff; now right).
    congruence.
Qed.

Lemma content64_ranking_defined_witness :
  [Build_movie_row 1 "N" None; Build_movie_row 2 "P" None] <> [] /\
  content_recommendation64 insertion_argsort
    [Build_movie_row 1 "N" None; Build_movie_row 2 "P" None] "N"%string
  = Raise AttributeError.
Proof.
  assert ([Build_movie_row 1 "N" None; Build_movie_row 2 "P" None] <> [])
    as Hne by discriminate.
  split; [exact Hne|].
  apply (proj2 (content64_ranking_defined insertion_argsort
                  [Build_movie_row 1 "N" None; Build_movie_row 2 "P" None]
                  "N"%string) Hne).
  intros m [<-|[<-|[]]]; reflexivity.
Defined.
